(** * Hopfield-network pseudo-random number generator with SHA-256 conditioning

    A shallow embedding of [RandomNumber.ipynb]: the raw generator
    [hopfield_prng], the conditioned generator [hopfield_sha_prng], the
    variants [tm_hnn_prng] and [dbhnn_prng], and the last cell.

    Modelling conventions.
    - A finite [float64] is modelled by a rational number.  The operations
      of the code on one number at a time (the division by [L * N], the
      products [1000 * scaled] and [val * 10**9], the remainder [% 1], and
      every operation of [dbhnn_prng]) round their exact result to the
      nearest binary64 number, ties to even ([Float64.rnd]).  The operations
      of numpy on whole arrays ([np.dot], [np.sum], the element-wise sums and
      products) are exact: the order in which numpy adds the terms of a sum
      is not fixed by the code.  The quotients [/ 2**32] and [/ 65535.0] of
      an integer are exact rationals; the first is exact in binary64 too.
    - In [hopfield_prng] the only non-finite values come from dividing by
      [L * N = 0]; they are the [Inf] and [NaN] cases of [npfloat].  In
      [dbhnn_prng] a result beyond the largest binary64 number is an
      infinity, as in the code.
    - Python integers are [Z]; bytes are [Byte.byte]; a [bytes] object is a
      [list byte].
    - [numpy.random] is a global generator: its state is threaded explicitly
      through every call that draws from it.  The draws themselves
      ([uniform], [permutation]) and [np.tanh] are parameters of the
      development; [hashlib.sha256] is implemented after FIPS 180-4.
    - Exceptions are values: a computation returns [Ok] or [Raise]. *)

From Stdlib Require Import ZArith QArith Qround Qabs Qpower Lia Lqa List Permutation.
From Stdlib Require Import Strings.Byte.
From stdpp Require Import base list.

Local Open Scope Z_scope.

(** ** Bytes and big-endian integers *)

Module Bytes.

Definition Z_of_byte (b : byte) : Z := Z.of_N (Byte.to_N b).

Definition byte_of_Z (z : Z) : byte :=
  match Byte.of_N (Z.to_N (z mod 256)) with
  | Some b => b
  | None => x00
  end.

(** The [n] low-order base-256 digits of [x], most significant first. *)
Fixpoint be_digits (n : nat) (x : Z) : list byte :=
  match n with
  | O => []
  | S n' => be_digits n' (x / 256) ++ [byte_of_Z x]
  end.

(** [int.from_bytes(bs, 'big')] *)
Definition from_bytes_big (bs : list byte) : Z :=
  fold_left (fun acc b => acc * 256 + Z_of_byte b) bs 0.

(** [[l[i:i+k] for i in range(0, len(l), k)]]: consecutive slices of width
    [k]; the last one is shorter when [k] does not divide [len(l)]. *)
Fixpoint slices_aux {A} (fuel k : nat) (l : list A) : list (list A) :=
  match fuel with
  | O => []
  | S fuel' =>
      match l with
      | [] => []
      | _ :: _ => take k l :: slices_aux fuel' k (drop k l)
      end
  end.

Definition slices {A} (k : nat) (l : list A) : list (list A) :=
  slices_aux (length l) k l.

End Bytes.

(** ** SHA-256 (FIPS 180-4), the function behind [hashlib.sha256] *)

Module SHA256.
Import Bytes.

Definition w32 (x : Z) : Z := x mod 2 ^ 32.

Definition rotr (n x : Z) : Z :=
  Z.lor (Z.shiftr x n) (w32 (Z.shiftl x (32 - n))).

Definition Ch (x y z : Z) : Z :=
  Z.lxor (Z.land x y) (Z.land (Z.lxor x 0xffffffff) z).

Definition Maj (x y z : Z) : Z :=
  Z.lxor (Z.lxor (Z.land x y) (Z.land x z)) (Z.land y z).

Definition Sigma0 (x : Z) : Z := Z.lxor (Z.lxor (rotr 2 x) (rotr 13 x)) (rotr 22 x).
Definition Sigma1 (x : Z) : Z := Z.lxor (Z.lxor (rotr 6 x) (rotr 11 x)) (rotr 25 x).
Definition sigma0 (x : Z) : Z := Z.lxor (Z.lxor (rotr 7 x) (rotr 18 x)) (Z.shiftr x 3).
Definition sigma1 (x : Z) : Z := Z.lxor (Z.lxor (rotr 17 x) (rotr 19 x)) (Z.shiftr x 10).

(** The round constants are the first 32 bits of the fractional parts of the
    cube roots of the first 64 primes, the initial hash value those of the
    square roots of the first 8 primes. *)
Definition is_prime (p : Z) : bool :=
  forallb (fun d => negb (p mod d =? 0)) (seqZ 2 (p - 2)).

Definition primes : list Z := List.filter is_prime (seqZ 2 310).

(** The integer [k]-th root of [x] below [2 ^ bits], by bisection. *)
Fixpoint iroot (k : Z) (bits : nat) (x r : Z) : Z :=
  match bits with
  | O => r
  | S bits' =>
      let c := r + 2 ^ Z.of_nat bits' in
      iroot k bits' x (if c ^ k <=? x then c else r)
  end.

Definition frac_cbrt (p : Z) : Z := w32 (iroot 3 40 (p * 2 ^ 96) 0).
Definition frac_sqrt (p : Z) : Z := w32 (iroot 2 40 (p * 2 ^ 64) 0).

Definition K : list Z := map frac_cbrt primes.

Record hstate := HState {
  ha : Z; hb : Z; hc : Z; hd : Z; he : Z; hf : Z; hg : Z; hh : Z }.

Definition H0 : hstate :=
  HState (frac_sqrt 2) (frac_sqrt 3) (frac_sqrt 5) (frac_sqrt 7)
         (frac_sqrt 11) (frac_sqrt 13) (frac_sqrt 17) (frac_sqrt 19).

(** Message padding: a [0x80] byte, zero bytes up to 56 modulo 64, and the
    bit length as a 64-bit big-endian integer. *)
Definition pad (msg : list byte) : list byte :=
  let len := Z.of_nat (length msg) in
  msg ++ [byte_of_Z 0x80]
      ++ repeat x00 (Z.to_nat ((55 - len) mod 64))
      ++ be_digits 8 (8 * len).

(** The message schedule, newest word first. *)
Fixpoint extend (n : nat) (ws : list Z) : list Z :=
  match n with
  | O => ws
  | S n' =>
      let w := w32 (sigma1 (nth 1 ws 0) + nth 6 ws 0 + sigma0 (nth 14 ws 0) + nth 15 ws 0) in
      extend n' (w :: ws)
  end.

Definition schedule (block : list byte) : list Z :=
  rev (extend 48 (rev (map from_bytes_big (slices 4 block)))).

Definition round (s : hstate) (kw : Z * Z) : hstate :=
  let t1 := w32 (hh s + Sigma1 (he s) + Ch (he s) (hf s) (hg s) + fst kw + snd kw) in
  let t2 := w32 (Sigma0 (ha s) + Maj (ha s) (hb s) (hc s)) in
  HState (w32 (t1 + t2)) (ha s) (hb s) (hc s) (w32 (hd s + t1)) (he s) (hf s) (hg s).

Definition compress (s : hstate) (block : list byte) : hstate :=
  let s' := fold_left round (combine K (schedule block)) s in
  HState (w32 (ha s + ha s')) (w32 (hb s + hb s')) (w32 (hc s + hc s'))
         (w32 (hd s + hd s')) (w32 (he s + he s')) (w32 (hf s + hf s'))
         (w32 (hg s + hg s')) (w32 (hh s + hh s')).

Definition digest_of (s : hstate) : list byte :=
  flat_map (be_digits 4) [ha s; hb s; hc s; hd s; he s; hf s; hg s; hh s].

(** [hashlib.sha256(msg).digest()] *)
Definition sha256 (msg : list byte) : list byte :=
  digest_of (fold_left compress (slices 64 (pad msg)) H0).

End SHA256.

(** ** Exceptions and the ambient random generator *)

Inductive exn : Set := ValueError | IndexError | OverflowError.

Inductive result (A : Type) : Type :=
  | Ok (a : A)
  | Raise (e : exn).
Arguments Ok {A} a.
Arguments Raise {A} e.

#[export] Instance result_ret : MRet result := fun _ a => Ok a.
#[export] Instance result_bind : MBind result := fun _ _ f m =>
  match m with
  | Ok a => f a
  | Raise e => Raise e
  end.

(** A computation that may draw from the generator state [G] and may raise. *)
Definition M (G A : Type) : Type := G -> result (A * G).

#[export] Instance M_ret {G} : MRet (M G) := fun _ a g => Ok (a, g).
#[export] Instance M_bind {G} : MBind (M G) := fun _ _ f m g =>
  match m g with
  | Ok (a, g') => f a g'
  | Raise e => Raise e
  end.

Definition lift {G A} (r : result A) : M G A := fun g =>
  match r with
  | Ok a => Ok (a, g)
  | Raise e => Raise e
  end.

(** ** numpy values *)

(** A [float64]: finite, an infinity, or not-a-number. *)
Inductive npfloat : Set :=
  | Fin (q : Q)
  | Inf (negative : bool)
  | NaN.

Abbreviation vector := (list Q).
Abbreviation matrix := (list (list Q)).

(** [int(x)] of a finite value: truncation toward zero. *)
Definition trunc (q : Q) : Z := Z.quot (Qnum q) (Zpos (Qden q)).

(** ** Rounding to binary64 *)

Module Float64.

Local Open Scope Q_scope.

(** Round to the nearest integer, ties to even. *)
Definition round_even (q : Q) : Z :=
  let f := Qfloor q in
  let r := q - inject_Z f in
  match Qcompare r (1 # 2) with
  | Lt => f
  | Gt => (f + 1)%Z
  | Eq => if Z.even f then f else (f + 1)%Z
  end.

(** The exponent [e] with [2 ^ e <= q < 2 ^ (e + 1)], for a positive [q]. *)
Definition ilog2 (q : Q) : Z :=
  let e0 := (Z.log2 (Qnum q) - Z.log2 (Zpos (Qden q)))%Z in
  if Qle_bool (2 ^ e0) q then e0 else (e0 - 1)%Z.

(** The exponent of the last place of the binary64 numbers around [q]: 53
    significant bits, and the subnormal spacing [2 ^ -1074] at the bottom. *)
Definition exponent (q : Q) : Z := Z.max (ilog2 q - 52) (-1074).

(** Rounding of a non-negative number to the nearest binary64 number, ties
    to even. *)
Definition round_pos (q : Q) : Q :=
  let ex := exponent q in
  inject_Z (round_even (q / 2 ^ ex)) * 2 ^ ex.

(** Rounding to the nearest binary64 number, ties to even; the exponent is
    not bounded above. *)
Definition rnd (q : Q) : Q :=
  let q := Qred q in
  Qred (if Qle_bool 0 q then round_pos q else - round_pos (- q)).

(** The largest binary64 number. *)
Definition max_float : Q := inject_Z ((2 ^ 53 - 1) * 2 ^ 971).

(** The binary64 value of an exact result: a rounding beyond the largest
    number is an infinity. *)
Definition fl (q : Q) : npfloat :=
  let r := rnd q in
  if Qle_bool (Qabs r) max_float then Fin r else Inf (negb (Qle_bool 0 r)).

End Float64.

Module Np.

Local Open Scope Q_scope.

Definition sum (v : vector) : Q := foldr Qplus 0 v.

Definition zeros (n : nat) : vector := replicate n 0.
Definition ones (n m : nat) : matrix := replicate n (replicate m 1).

(** [np.triu(A, k)] keeps the entries with [j - i >= k], [np.tril(A, k)]
    those with [j - i <= k]; the others become zero. *)
Definition triu (k : Z) (A : matrix) : matrix :=
  imap (fun i row =>
    imap (fun j x => if (Z.of_nat j - Z.of_nat i >=? k)%Z then x else 0) row) A.
Definition tril (k : Z) (A : matrix) : matrix :=
  imap (fun i row =>
    imap (fun j x => if (Z.of_nat j - Z.of_nat i <=? k)%Z then x else 0) row) A.

Definition scale (c : Q) (A : matrix) : matrix := map (map (Qmult c)) A.
Definition mat_add (A B : matrix) : matrix := zip_with (zip_with Qplus) A B.
Definition mat_sub (A B : matrix) : matrix := zip_with (zip_with Qminus) A B.
Definition vec_sub (u v : vector) : vector := zip_with Qminus u v.

(** [np.dot(T, V)] and [T @ V] for a matrix whose rows are as long as the
    vector. *)
Definition inner (u v : vector) : Q := sum (zip_with Qmult u v).
Definition dot (T : matrix) (V : vector) : vector := map (fun row => inner row V) T.

Definition diag (T : matrix) : vector := imap (fun i row => nth i row 0) T.

(** [np.fill_diagonal(T, d)] for a vector [d] as long as the diagonal. *)
Definition fill_diagonal (T : matrix) (d : vector) : matrix :=
  imap (fun i row =>
    match d !! i with
    | Some x => <[i:=x]> row
    | None => row
    end) T.

(** [U[idx]]: gather; an index out of range raises. *)
Definition take_idx (U : vector) (idx : list nat) : result vector :=
  mapM (fun i =>
    match U !! i with
    | Some x => Ok x
    | None => Raise IndexError
    end) idx.

(** [V[idx] = vals]: scatter, in index order. *)
Fixpoint put_idx (V : vector) (idx : list nat) (vals : vector) : result vector :=
  match idx, vals with
  | i :: idx', x :: vals' =>
      if decide (i < length V)%nat
      then put_idx (<[i:=x]> V) idx' vals'
      else Raise IndexError
  | _, _ => Ok V
  end.

(** [x / d] for a finite [x] and a Python integer [d]: the integer is
    converted to binary64 and the quotient is rounded; division by zero
    gives an infinity or not-a-number (with a warning), never an
    exception. *)
Definition div_int (x : Q) (d : Z) : npfloat :=
  if (d =? 0)%Z then
    if Qeq_bool x 0 then NaN else Inf (negb (Qle_bool 0 x))
  else Fin (Float64.rnd (x / Float64.rnd (inject_Z d))).

(** Multiplication of two [float64] values: the product is rounded.  The
    code uses it on bounded operands ([1000 * scaled], [val * 10**9]);
    [fmul] below also accounts for overflow. *)
Definition mul (x y : npfloat) : npfloat :=
  match x, y with
  | Fin p, Fin q => Fin (Float64.rnd (p * q))
  | NaN, _ | _, NaN => NaN
  | Inf s, Inf t => Inf (xorb s t)
  | Inf s, Fin q | Fin q, Inf s =>
      if Qeq_bool q 0 then NaN else Inf (xorb s (negb (Qle_bool 0 q)))
  end.

(** [x % 1] as numpy computes it for a finite [x]: the remainder of the
    truncated division, [fmod(x, 1)], is exact and has the sign of [x]; a
    negative remainder is moved to the sign of the divisor by adding [1], and
    this addition rounds.  The result is not-a-number for the other values. *)
Definition fmod1 (q : Q) : Q := q - inject_Z (trunc q).

Definition frac (q : Q) : Q :=
  let r := fmod1 q in
  if Qle_bool 0 r then r else Float64.rnd (r + 1).

Definition mod1 (x : npfloat) : npfloat :=
  match x with
  | Fin q => Fin (frac q)
  | _ => NaN
  end.

(** Addition and multiplication where the code can leave the range of
    binary64: the rounded result may be an infinity, and the operations on
    infinities and not-a-number follow IEEE 754. *)
Definition fadd (x y : npfloat) : npfloat :=
  match x, y with
  | Fin p, Fin q => Float64.fl (p + q)
  | NaN, _ | _, NaN => NaN
  | Inf s, Inf t => if Bool.eqb s t then Inf s else NaN
  | Inf s, Fin _ | Fin _, Inf s => Inf s
  end.

Definition fmul (x y : npfloat) : npfloat :=
  match x, y with
  | Fin p, Fin q => Float64.fl (p * q)
  | NaN, _ | _, NaN => NaN
  | Inf s, Inf t => Inf (xorb s t)
  | Inf s, Fin q | Fin q, Inf s =>
      if Qeq_bool q 0 then NaN else Inf (xorb s (negb (Qle_bool 0 q)))
  end.

(** [int(x)]: truncation toward zero. *)
Definition to_int (x : npfloat) : result Z :=
  match x with
  | Fin q => Ok (Z.quot (Qnum q) (Zpos (Qden q)))
  | Inf _ => Raise OverflowError
  | NaN => Raise ValueError
  end.

End Np.

(** [x.to_bytes(length, 'big')] for an unsigned conversion. *)
Definition to_bytes (len : nat) (x : Z) : result (list byte) :=
  if (x <? 0) || (256 ^ Z.of_nat len <=? x)
  then Raise OverflowError
  else Ok (Bytes.be_digits len x).

(** [l[:n]] with Python's reading of a negative bound. *)
Definition slice_to {A} (n : Z) (l : list A) : list A :=
  if n <? 0 then take (Z.to_nat (Z.of_nat (length l) + n)) l
  else take (Z.to_nat n) l.

(** ** The generators *)

Section Generator.

Context {G : Type}.

(** The collaborators: one draw of [np.random.uniform(low, high)], one call
    of [np.random.permutation(n)], and [np.tanh] on a finite value. *)
Variable uniform : Q -> Q -> G -> Q * G.
Variable permutation : nat -> G -> list nat * G.
Variable tanh : Q -> Q.

Fixpoint uniform_vec (low high : Q) (n : nat) (g : G) : vector * G :=
  match n with
  | O => ([], g)
  | S n' =>
      let (x, g1) := uniform low high g in
      let (xs, g2) := uniform_vec low high n' g1 in
      (x :: xs, g2)
  end.

Fixpoint uniform_mat (low high : Q) (n m : nat) (g : G) : matrix * G :=
  match n with
  | O => ([], g)
  | S n' =>
      let (row, g1) := uniform_vec low high m g in
      let (rows, g2) := uniform_mat low high n' m g1 in
      (row :: rows, g2)
  end.

(** [np.random.uniform(low, high, n)] and [np.random.uniform(low, high, (n, m))] *)
Definition random_uniform_vector (low high : Q) (n : Z) : M G vector := fun g =>
  if n <? 0 then Raise ValueError
  else Ok (uniform_vec low high (Z.to_nat n) g).

Definition random_uniform_matrix (low high : Q) (n m : Z) : M G matrix := fun g =>
  if (n <? 0) || (m <? 0) then Raise ValueError
  else Ok (uniform_mat low high (Z.to_nat n) (Z.to_nat m) g).

(** [np.random.choice(a, size=size, replace=False)] for an integer [a]: the
    first [size] entries of a random permutation of [range(a)]. *)
Definition random_choice (a size : Z) : M G (list nat) := fun g =>
  if (a <=? 0) && negb (size =? 0) then Raise ValueError
  else if (a <? size) || (size <? 0) then Raise ValueError
  else
    let (p, g') := permutation (Z.to_nat a) g in
    Ok (take (Z.to_nat size) p, g').

(** Weight perturbation:
    [T + delta * np.triu(np.ones((N, N))) - delta * np.tril(np.ones((N, N)), -1)] *)
Definition perturb (N : Z) (delta : Q) (T : matrix) : matrix :=
  let one := Np.ones (Z.to_nat N) (Z.to_nat N) in
  Np.mat_sub (Np.mat_add T (Np.scale delta (Np.triu 0 one)))
             (Np.scale delta (Np.tril (-1) one)).

(** One pass of the neuron activation loop. *)
Definition activate (N : Z) (b : Q) (T : matrix) (I V : vector) : M G vector :=
  idx ← random_choice N (N / 2 + 1);
  let U := Np.vec_sub (Np.dot T V) I in
  lift (Ui ← Np.take_idx U idx;
        Np.put_idx V idx (map tanh (map (Qmult b) Ui))).

Fixpoint activation (n : nat) (N : Z) (b : Q) (T : matrix) (I V : vector)
  : M G vector :=
  match n with
  | O => mret V
  | S n' => V' ← activate N b T I V; activation n' N b T I V'
  end.

(** Random number extraction. *)
Definition extract (N L : Z) (T : matrix) (V : vector) : npfloat :=
  let scaled := Np.div_int (Np.sum (map tanh (Np.dot T V))) (L * N) in
  Np.mod1 (Np.mul (Fin 1000) scaled).

(** The body of [for _ in range(num_outputs)]: perturb the weights, run the
    activation loop, extract one number. *)
Definition output_step (N L : Z) (b delta : Q) (I : vector)
    (T : matrix) (V : vector) : M G (matrix * vector * npfloat) :=
  let T := perturb N delta T in
  V ← activation (Z.to_nat L) N b T I V;
  let fractional := extract N L T V in
  mret (T, V, fractional).

Fixpoint output_loop (n : nat) (N L : Z) (b delta : Q) (I : vector)
    (T : matrix) (V : vector) (outputs : list npfloat)
  : M G (matrix * vector * list npfloat) :=
  match n with
  | O => mret (T, V, outputs)
  | S n' =>
      '(T, V, fractional) ← output_step N L b delta I T V;
      output_loop n' N L b delta I T V (outputs ++ [fractional])
  end.

(** Initialisation of the weights and the neuron states. *)
Definition initialise (N : Z) : M G (matrix * vector) :=
  T ← random_uniform_matrix (-1) 1 N N;
  let T := Np.fill_diagonal T (map (fun x => x * 2)%Q (Np.diag T)) in
  V ← random_uniform_vector (-1) 1 N;
  mret (T, V).

(** [hopfield_prng] together with the final weights and states. *)
Definition hopfield_run (num_outputs N L : Z) (b delta : Q)
  : M G (matrix * vector * list npfloat) :=
  '(T, V) ← initialise N;
  let I := Np.zeros (Z.to_nat N) in
  output_loop (Z.to_nat num_outputs) N L b delta I T V [].

Definition hopfield_prng (num_outputs N L : Z) (b delta : Q)
  : M G (list npfloat) :=
  '(_, _, outputs) ← hopfield_run num_outputs N L b delta;
  mret outputs.

(** [b''.join(int(val * 10**9).to_bytes(4, 'big') for val in raw_sequence)] *)
Definition serialize (raw_sequence : list npfloat) : result (list byte) :=
  chunks ← mapM (fun val =>
              x ← Np.to_int (Np.mul val (Fin (inject_Z (10 ^ 9))));
              to_bytes 4 x) raw_sequence;
  mret (concat chunks).

(** [[int.from_bytes(hashed[i:i+4], 'big') / 2**32
      for i in range(0, len(hashed), 4)]] *)
Definition normalise (hashed : list byte) : list Q :=
  map (fun chunk => inject_Z (Bytes.from_bytes_big chunk) / inject_Z (2 ^ 32))%Q
      (Bytes.slices 4 hashed).

Definition hopfield_sha_prng (num_outputs : Z) : M G (list Q) :=
  raw_sequence ← hopfield_prng num_outputs 100 10 (1 # 10) (1 # 100);
  byte_data ← lift (serialize raw_sequence);
  let hashed := SHA256.sha256 byte_data in
  mret (slice_to num_outputs (normalise hashed)).

End Generator.

(** ** The other generators of the notebook *)

Module Bits.

(** [f'{byte:08b}']: the eight binary digits of a byte, most significant
    first; [true] stands for the character ['1']. *)
Definition format_08b (b : byte) : list bool :=
  map (Z.testbit (Bytes.Z_of_byte b)) [7; 6; 5; 4; 3; 2; 1; 0].

(** [s[lo:hi]] for [0 <= lo <= hi]. *)
Definition slice {A} (lo hi : nat) (s : list A) : list A :=
  take (hi - lo) (drop lo s).

(** [int(bits, 2)]: the empty string is refused. *)
Definition int_base2 (bits : list bool) : result Z :=
  match bits with
  | [] => Raise ValueError
  | _ :: _ => Ok (fold_left (fun acc d => 2 * acc + Z.b2z d) bits 0)
  end.

End Bits.

Section Variants.

Context {G : Type}.

(** The collaborators: [np.random.uniform], [np.random.permutation],
    [np.tanh], [np.sin], and [np.float32(x).tobytes()], the bytes of the
    single-precision value of [x] in the byte order of the machine. *)
Variable uniform : Q -> Q -> G -> Q * G.
Variable permutation : nat -> G -> list nat * G.
Variable tanh : Q -> Q.
Variable sin : Q -> Q.
Variable float32_tobytes : Q -> list byte.

(** [np.random.uniform(low, high)]: one number. *)
Definition random_uniform (low high : Q) : M G Q := fun g =>
  Ok (uniform low high g).

(** The body of the loop of [tm_hnn_prng]. *)
Definition tm_hnn_step : M G Q :=
  state ← random_uniform (-10) 10;
  let float_bytes := float32_tobytes state in
  let bits := Bits.slice 16 32 (concat (map Bits.format_08b float_bytes)) in
  n ← lift (Bits.int_base2 bits);
  mret (inject_Z n / 65535)%Q.

Fixpoint tm_hnn_loop (n : nat) (random_numbers : list Q) : M G (list Q) :=
  match n with
  | O => mret random_numbers
  | S n' =>
      x ← tm_hnn_step;
      tm_hnn_loop n' (random_numbers ++ [x])
  end.

Definition tm_hnn_prng (num_outputs : Z) : M G (list Q) :=
  tm_hnn_loop (Z.to_nat num_outputs) [].

(** [np.sin]: not-a-number for an infinity and for not-a-number. *)
Definition np_sin (x : npfloat) : npfloat :=
  match x with
  | Fin q => Fin (sin q)
  | _ => NaN
  end.

(** The output transformation of [dbhnn_prng]:
    [Xm = (x + y) % 1] and [int(Xm * K) % 256 / 255.0].  [int] raises on
    not-a-number and on an infinity. *)
Definition dbhnn_output (K : Z) (x y : npfloat) : result Q :=
  let Xm := Np.mod1 (Np.fadd x y) in
  n ← Np.to_int (Np.fmul Xm (Float64.fl (inject_Z K)));
  mret (Float64.rnd (inject_Z (n mod 256) / 255)).

(** The update equations, with [g11, g12, g21, g22 = 2, 2, -2, -2]; the
    sums are taken from left to right. *)
Definition dbhnn_update (mu : Q) (x y : npfloat) : npfloat * npfloat :=
  let x_new :=
    Np.fadd (Np.fadd (Np.fmul (Fin mu) x) (Np.fmul (Fin 2) (np_sin x)))
            (Np.fmul (Fin 2) (np_sin y)) in
  let y_new :=
    Np.fadd (Np.fadd (Np.fmul (Fin mu) y) (Np.fmul (Fin (-2)) (np_sin x)))
            (Np.fmul (Fin (-2)) (np_sin y)) in
  (x_new, y_new).

Fixpoint dbhnn_loop (n : nat) (mu : Q) (K : Z) (x y : npfloat)
    (outputs : list Q) : result (list Q) :=
  match n with
  | O => mret outputs
  | S n' =>
      let (x, y) := dbhnn_update mu x y in
      prng_output ← dbhnn_output K x y;
      dbhnn_loop n' mu K x y (outputs ++ [prng_output])
  end.

Definition dbhnn_prng (num_outputs : Z) (mu : Q) (K : Z) : M G (list Q) :=
  x ← random_uniform (-1) 1;
  y ← random_uniform (-1) 1;
  lift (dbhnn_loop (Z.to_nat num_outputs) mu K (Fin x) (Fin y) []).

(** The last cell of the notebook: the four generators, one number each, in
    this order on the one global generator state. *)
Definition notebook_cell : M G (list npfloat * list Q * list Q * list Q) :=
  random_nums ← hopfield_prng uniform permutation tanh 1 100 10 (1 # 10) (1 # 100);
  tm_random ← tm_hnn_prng 1;
  dbhnn_random ← dbhnn_prng 1 (95 # 100) 1000;
  secure_random ← hopfield_sha_prng uniform permutation tanh 1;
  mret (random_nums, tm_random, dbhnn_random, secure_random).

End Variants.

(** ** Vocabulary of the statements *)

Definition unit_interval (q : Q) : Prop := (0 <= q /\ q < 1)%Q.

(** An [n] by [m] matrix. *)
Definition shape (n m : nat) (A : matrix) : Prop :=
  length A = n ∧ Forall (fun row => length row = m) A.

(** The closed intervals [[-1, 1]] and [[0, 1]]. *)
Definition within_one (q : Q) : Prop := (-1 <= q /\ q <= 1)%Q.
Definition closed_unit (q : Q) : Prop := (0 <= q /\ q <= 1)%Q.

(** What a raw sample is, depending on the divisor [L * N]. *)
Definition raw_sample_ok (N L : Z) (x : npfloat) : Prop :=
  if decide (L * N = 0) then x = NaN
  else ∃ q, x = Fin q ∧ closed_unit q.

(** The integer written for a raw sample [v]: the integer part of the
    rounded product [val * 10**9]. *)
Definition quantise (v : Q) : Z := Qfloor (Float64.rnd (v * inject_Z (10 ^ 9))).

(** The byte string that is hashed for the raw samples [vs]. *)
Definition byte_data_of (vs : list Q) : list byte :=
  concat (map (fun v => Bytes.be_digits 4 (quantise v)) vs).

(** Entry [(i, j)] of a matrix (zero outside of it). *)
Definition entry (A : matrix) (i j : nat) : Q :=
  default 0%Q (A !! i ≫= (.!! j)).

(** Sums over [i = 0 .. n-1]. *)
Definition sum_over (n : nat) (f : nat → Q) : Q := Np.sum (map f (seq 0 n)).

(** The sum of the entries on and above the diagonal, and of those below. *)
Definition upper_sum (n : nat) (T : matrix) : Q :=
  sum_over n (fun i => sum_over n (fun j =>
    if decide (i ≤ j)%nat then entry T i j else 0%Q)).
Definition lower_sum (n : nat) (T : matrix) : Q :=
  sum_over n (fun i => sum_over n (fun j =>
    if decide (j < i)%nat then entry T i j else 0%Q)).

(** The signed contribution of entry [(i, j)] to [upper_sum - lower_sum]. *)
Definition signed_entry (T : matrix) (i j : nat) : Q :=
  ((if decide (i ≤ j)%nat then entry T i j else 0)
   - (if decide (j < i)%nat then entry T i j else 0))%Q.

(** The sum of all the entries. *)
Definition total_sum (n : nat) (T : matrix) : Q :=
  sum_over n (fun i => sum_over n (entry T i)).

(** A raw sample that line 125 of the notebook can write in four bytes. *)
Definition serialisable (x : npfloat) : Prop :=
  ∃ q, x = Fin q
       ∧ (-1 < Float64.rnd (q * inject_Z (10 ^ 9)) < inject_Z (2 ^ 32))%Q.

(** The number [tm_hnn_prng] makes of a state: bytes 2 and 3 of its
    single-precision buffer, read as a 16-bit integer, over 65535. *)
Definition tm_word (float_bytes : list byte) : Q :=
  (inject_Z (256 * Bytes.Z_of_byte (nth 2 float_bytes x00)
             + Bytes.Z_of_byte (nth 3 float_bytes x00)) / 65535)%Q.


(** A finite value of magnitude at most [B]. *)
Definition finite_within (B : Q) (x : npfloat) : Prop :=
  ∃ q, x = Fin q ∧ (- B <= q ∧ q <= B)%Q.

(** A bound that is a binary64 number, together with its opposite. *)
Definition representable_bound (B : Q) : Prop :=
  (Float64.rnd B = B ∧ Float64.rnd (- B) = - B ∧ B <= Float64.max_float)%Q.

(** An 8-bit value over 255, as a binary64 number. *)
Definition eighth_bit_fraction (o : Q) : Prop :=
  ∃ k, 0 <= k <= 255 ∧ o = Float64.rnd (inject_Z k / 255)%Q.

(** The eight numbers that [hopfield_sha_prng] makes of the digest of the
    empty byte string. *)
Definition empty_digest_words : list Q :=
  map (fun x => inject_Z x / inject_Z (2 ^ 32))%Q
    [3820012610; 2566659092; 2600203464; 2574235940;
     665731556; 1687917388; 2761267483; 2018687061].

(** ** A concrete generator *)

Module Demo.

Local Open Scope Q_scope.

(** A linear congruential generator stands in for [numpy.random], a rational
    sigmoid for [np.tanh]. *)
Definition next (g : Z) : Z := ((1103515245 * g + 12345) mod 2 ^ 31)%Z.

Definition uniform (low high : Q) (g : Z) : Q * Z :=
  let g' := next g in
  (Qred (low + (high - low) * (g' # 2 ^ 31)), g').

Definition permutation (n : nat) (g : Z) : list nat * Z :=
  let g' := next g in
  (rotate (Z.to_nat (g' mod Z.of_nat (S n))) (seq 0 n), g').

Definition tanh (x : Q) : Q := Qred (x / (1 + Qabs x)).

Definition zero2 : matrix := [[0; 0]; [0; 0]].
Definition weights2 : matrix := [[1 # 2; - (1 # 4)]; [1 # 4; - (1 # 2)]].
Definition weights3 : matrix :=
  [[1 # 2; - (1 # 4); 1 # 3]; [1 # 4; - (1 # 2); 1 # 5];
   [- (1 # 3); 1 # 6; 3 # 4]].






(** A rational stand-in for [np.sin]. *)
Definition sin (x : Q) : Q := Qred (x / (1 + x * x)).

(** The little-endian single-precision encoding of a rational in the normal
    range (smaller magnitudes are flushed to zero, larger ones become an
    infinity). *)
Definition float32_tobytes (x : Q) : list byte :=
  let sign := if Qle_bool 0 x then 0%Z else 1%Z in
  let a := Qabs x in
  let word :=
    if Qeq_bool a 0 then 0%Z
    else
      let e0 := (Z.log2 (Qnum a) - Z.log2 (Zpos (Qden a)))%Z in
      let e := if Qle_bool (2 ^ e0) a then e0 else (e0 - 1)%Z in
      let m := Float64.round_even (a / 2 ^ e * 2 ^ 23) in
      let (e, m) := if (m =? 2 ^ 24)%Z then ((e + 1)%Z, (2 ^ 23)%Z) else (e, m) in
      let E := (e + 127)%Z in
      if (E <=? 0)%Z then 0%Z
      else if (255 <=? E)%Z then (255 * 2 ^ 23)%Z
      else (E * 2 ^ 23 + (m - 2 ^ 23))%Z
  in
  rev (Bytes.be_digits 4 (sign * 2 ^ 31 + word)).

End Demo.

Ltac unfold_monad :=
  unfold mbind, mret, M_bind, M_ret, result_bind, result_ret, lift.

(** * Properties *)

(** ** Rounding *)

Section Float64Facts.
Import Float64.
Local Open Scope Q_scope.

Lemma round_even_floor (x : Q) :
  (Qfloor x <= round_even x <= Qfloor x + 1)%Z.
Proof.
  unfold round_even.
  destruct (Qcompare _ _); [destruct (Z.even _)|..]; lia.
Qed.

Lemma round_even_le (x y : Q) : x <= y → (round_even x <= round_even y)%Z.
Proof.
  intros Hxy.
  pose proof (Qfloor_resp_le _ _ Hxy) as Hf.
  destruct (Z.eq_dec (Qfloor x) (Qfloor y)) as [E|E].
  - unfold round_even. rewrite <- E.
    destruct (Qcompare (x - inject_Z (Qfloor x)) (1 # 2)) eqn:Cx;
      destruct (Qcompare (y - inject_Z (Qfloor x)) (1 # 2)) eqn:Cy;
      try destruct (Z.even (Qfloor x)); try lia;
      first [apply <- Qeq_alt in Cx | apply <- Qlt_alt in Cx | apply <- Qgt_alt in Cx];
      first [apply <- Qeq_alt in Cy | apply <- Qlt_alt in Cy | apply <- Qgt_alt in Cy];
      exfalso; lra.
  - pose proof (round_even_floor x). pose proof (round_even_floor y). lia.
Qed.

Lemma round_even_Z (z : Z) : round_even (inject_Z z) = z.
Proof.
  unfold round_even. rewrite Qfloor_Z.
  assert (E : Qcompare (inject_Z z - inject_Z z) (1 # 2) = Lt).
  { apply Qlt_alt. unfold Qminus. now rewrite Qplus_opp_r. }
  now rewrite E.
Qed.

Lemma round_even_comp (x y : Q) : x == y → round_even x = round_even y.
Proof.
  intros E. unfold round_even. rewrite <- (Qfloor_comp _ _ E).
  assert (E' : x - inject_Z (Qfloor x) == y - inject_Z (Qfloor x)) by lra.
  now rewrite (Qcompare_comp _ _ E' (1 # 2) (1 # 2) (Qeq_refl _)).
Qed.

Lemma pow2_pos (e : Z) : 0 < 2 ^ e.
Proof. now apply Qpower_0_lt. Qed.

Lemma pow2_le (a b : Z) : (a <= b)%Z → 2 ^ a <= 2 ^ b.
Proof. intros H. now apply Qpower_le_compat_l. Qed.

Lemma pow2_lt_inv (a b : Z) : 2 ^ a < 2 ^ b → (a < b)%Z.
Proof. intros H. now apply (Qpower_lt_compat_l_inv 2). Qed.

Lemma pow2_Z (k : Z) : (0 <= k)%Z → 2 ^ k == inject_Z (2 ^ k).
Proof. intros H. now rewrite Zpower_Qpower. Qed.

Lemma pow2_split (a b : Z) : 2 ^ a == 2 ^ (a - b) * 2 ^ b.
Proof.
  rewrite <- Qpower_plus by discriminate. now replace (a - b + b)%Z with a by lia.
Qed.

Lemma ilog2_spec (q : Q) : 0 < q → 2 ^ ilog2 q <= q ∧ q < 2 ^ (ilog2 q + 1).
Proof.
  intros Hq. destruct q as [n d]. unfold ilog2. cbn [Qnum Qden].
  assert (Hn : (0 < n)%Z) by (unfold Qlt in Hq; cbn in Hq; lia).
  set (a := Z.log2 n). set (b := Z.log2 (Zpos d)).
  pose proof (Z.log2_spec n Hn) as [Ha1 Ha2]. fold a in Ha1, Ha2.
  pose proof (Z.log2_spec (Zpos d) eq_refl) as [Hb1 Hb2]. fold b in Hb1, Hb2.
  assert (Ha0 : (0 <= a)%Z) by apply Z.log2_nonneg.
  assert (Hb0 : (0 <= b)%Z) by apply Z.log2_nonneg.
  assert (En : n # d == inject_Z n / inject_Z (Zpos d)) by apply Qmake_Qdiv.
  assert (Hd : 0 < inject_Z (Zpos d)) by reflexivity.
  assert (Qa1 : 2 ^ a <= inject_Z n) by (rewrite pow2_Z by lia; now rewrite <- Zle_Qle).
  assert (Qa2 : inject_Z n < 2 ^ (a + 1)) by (rewrite pow2_Z by lia; now rewrite <- Zlt_Qlt).
  assert (Qb1 : 2 ^ b <= inject_Z (Zpos d)) by (rewrite pow2_Z by lia; now rewrite <- Zle_Qle).
  assert (Qb2 : inject_Z (Zpos d) < 2 ^ (b + 1)) by (rewrite pow2_Z by lia; now rewrite <- Zlt_Qlt).
  pose proof (pow2_pos b) as Pb. pose proof (pow2_pos (a - b - 1)) as Pl.
  pose proof (pow2_pos (a - b + 1)) as Pu.
  assert (Hlo : 2 ^ (a - b - 1) <= n # d).
  { rewrite En. apply Qle_shift_div_l; [done|].
    apply Qle_trans with (2 ^ (a - b - 1) * 2 ^ (b + 1)).
    - apply Qmult_le_l; [done|]. now apply Qlt_le_weak.
    - rewrite <- Qpower_plus by discriminate.
      now replace (a - b - 1 + (b + 1))%Z with a by lia. }
  assert (Hhi : n # d < 2 ^ (a - b + 1)).
  { rewrite En. apply Qlt_shift_div_r; [done|].
    apply Qlt_le_trans with (2 ^ (a - b + 1) * 2 ^ b).
    - rewrite <- Qpower_plus by discriminate.
      now replace (a - b + 1 + b)%Z with (a + 1)%Z by lia.
    - apply Qmult_le_l; [done|]. done. }
  destruct (Qle_bool (2 ^ (a - b)) (n # d)) eqn:C.
  - apply Qle_bool_iff in C. done.
  - split; [done|].
    replace (a - b - 1 + 1)%Z with (a - b)%Z by lia.
    apply Qnot_le_lt. intros H. apply Qle_bool_iff in H. congruence.
Qed.

Lemma ilog2_le (p q : Q) : 0 < p → p <= q → (ilog2 p <= ilog2 q)%Z.
Proof.
  intros Hp Hpq.
  assert (Hq : 0 < q) by lra.
  destruct (ilog2_spec p Hp) as [H1 _]. destruct (ilog2_spec q Hq) as [_ H2].
  assert (H : 2 ^ ilog2 p < 2 ^ (ilog2 q + 1)) by lra.
  apply pow2_lt_inv in H. lia.
Qed.

Lemma ilog2_comp (p q : Q) : 0 < p → p == q → ilog2 p = ilog2 q.
Proof.
  intros Hp E.
  assert (Hq : 0 < q) by lra.
  assert (H1 : p <= q) by lra. assert (H2 : q <= p) by lra.
  pose proof (ilog2_le p q Hp H1). pose proof (ilog2_le q p Hq H2). lia.
Qed.

(** A number on the grid of [q] that bounds [q] also bounds its rounding. *)
Lemma round_pos_le_grid (q : Q) (k : Z) :
  q <= inject_Z k * 2 ^ exponent q → round_pos q <= inject_Z k * 2 ^ exponent q.
Proof.
  intros H. unfold round_pos.
  pose proof (pow2_pos (exponent q)) as P.
  apply Qmult_le_r; [done|]. rewrite <- Zle_Qle.
  rewrite <- (round_even_Z k). apply round_even_le.
  apply Qle_shift_div_r; done.
Qed.

Lemma round_pos_ge_grid (q : Q) (k : Z) :
  inject_Z k * 2 ^ exponent q <= q → inject_Z k * 2 ^ exponent q <= round_pos q.
Proof.
  intros H. unfold round_pos.
  pose proof (pow2_pos (exponent q)) as P.
  apply Qmult_le_r; [done|]. rewrite <- Zle_Qle.
  rewrite <- (round_even_Z k) at 1. apply round_even_le.
  apply Qle_shift_div_l; done.
Qed.

Lemma round_pos_nonneg (q : Q) : 0 <= q → 0 <= round_pos q.
Proof.
  intros H. pose proof (round_pos_ge_grid q 0) as G.
  rewrite Qmult_0_l in G. auto.
Qed.

Lemma round_pos_zero (q : Q) : q == 0 → round_pos q == 0.
Proof.
  intros E. unfold round_pos.
  assert (E' : q / 2 ^ exponent q == inject_Z 0).
  { unfold Qdiv. generalize (/ 2 ^ exponent q). intros c.
    transitivity (0 * c); [now apply Qmult_comp|apply Qmult_0_l]. }
  rewrite (round_even_comp _ _ E'), round_even_Z. apply Qmult_0_l.
Qed.

Lemma exponent_le (p q : Q) : 0 < p → p <= q → (exponent p <= exponent q)%Z.
Proof.
  intros Hp Hpq. unfold exponent. pose proof (ilog2_le p q Hp Hpq). lia.
Qed.

Lemma round_pos_le (p q : Q) : 0 <= p → p <= q → round_pos p <= round_pos q.
Proof.
  intros Hp Hpq.
  destruct (Qlt_le_dec 0 p) as [Hp0|Hp0].
  2:{ rewrite (round_pos_zero p) by lra. apply round_pos_nonneg. lra. }
  assert (Hq0 : 0 < q) by lra.
  pose proof (exponent_le p q Hp0 Hpq) as He.
  destruct (Z.eq_dec (exponent p) (exponent q)) as [E|E].
  - unfold round_pos. rewrite E.
    pose proof (pow2_pos (exponent q)) as P.
    apply Qmult_le_r; [done|]. rewrite <- Zle_Qle. apply round_even_le.
    apply Qmult_le_r; [now apply Qinv_lt_0_compat|done].
  - (* the power of two at the bottom of the binade of [q] separates them *)
    assert (Hlt : (exponent p < exponent q)%Z) by lia.
    assert (Eq : exponent q = (ilog2 q - 52)%Z) by (unfold exponent in *; lia).
    assert (Lp : (ilog2 p + 1 <= ilog2 q)%Z) by (unfold exponent in *; lia).
    destruct (ilog2_spec p Hp0) as [_ Hp2]. destruct (ilog2_spec q Hq0) as [Hq1 _].
    pose proof (pow2_le _ _ Lp) as Hpw.
    apply Qle_trans with (2 ^ ilog2 q).
    + rewrite (pow2_split (ilog2 q) (exponent p)).
      rewrite (pow2_Z (ilog2 q - exponent p)) by lia.
      apply round_pos_le_grid.
      rewrite <- pow2_Z by lia. rewrite <- pow2_split. lra.
    + rewrite (pow2_split (ilog2 q) (exponent q)).
      rewrite (pow2_Z (ilog2 q - exponent q)) by lia.
      apply round_pos_ge_grid.
      rewrite <- pow2_Z by lia. rewrite <- pow2_split. lra.
Qed.

Lemma round_pos_comp (p q : Q) : 0 <= p → p == q → round_pos p == round_pos q.
Proof.
  intros Hp E. apply Qle_antisym; apply round_pos_le; lra.
Qed.

(** Rounding is monotone. *)
Lemma rnd_le (p q : Q) : p <= q → rnd p <= rnd q.
Proof.
  intros Hpq. unfold rnd. cbv zeta.
  generalize (Qred_correct p) (Qred_correct q).
  generalize (Qred p) (Qred q). intros p' q' Ep Eq.
  rewrite 2!Qred_correct.
  destruct (Qle_bool 0 p') eqn:Cp; destruct (Qle_bool 0 q') eqn:Cq.
  - apply Qle_bool_iff in Cp. apply round_pos_le; lra.
  - apply Qle_bool_iff in Cp.
    assert (¬ 0 <= q') by (rewrite <- Qle_bool_iff; congruence). lra.
  - apply Qle_bool_iff in Cq.
    assert (Np : ¬ 0 <= p') by (rewrite <- Qle_bool_iff; congruence).
    assert (H1 : 0 <= round_pos (- p')) by (apply round_pos_nonneg; lra).
    assert (H2 : 0 <= round_pos q') by (apply round_pos_nonneg; lra).
    lra.
  - assert (Np : ¬ 0 <= p') by (rewrite <- Qle_bool_iff; congruence).
    assert (Nq : ¬ 0 <= q') by (rewrite <- Qle_bool_iff; congruence).
    assert (H : round_pos (- q') <= round_pos (- p')) by (apply round_pos_le; lra).
    lra.
Qed.

Lemma rnd_comp (p q : Q) : p == q → rnd p = rnd q.
Proof.
  intros E. unfold rnd. now rewrite (Qred_complete _ _ E).
Qed.

(** Known binary64 values: [0.1] and [1/3]; ties go to the even
    significand; the product of the double nearest [0.3] with [10^9]; the
    subnormal numbers; the overflow threshold. *)
Example rnd_vectors :
  rnd (1 # 10) = 3602879701896397 # 36028797018963968
  ∧ rnd (1 # 3) = 6004799503160661 # 18014398509481984
  ∧ rnd (- (1 # 3)) = - (6004799503160661 # 18014398509481984)
  ∧ rnd (inject_Z (2 ^ 53 + 1)) = inject_Z (2 ^ 53)
  ∧ rnd (inject_Z (2 ^ 53 + 3)) = inject_Z (2 ^ 53 + 4)
  ∧ rnd (1 - (1 # 2 ^ 54)) = 1
  ∧ rnd (1 - (1 # 2 ^ 53)) = 1 - (1 # 2 ^ 53)
  ∧ rnd ((5404319552844595 # 18014398509481984) * inject_Z (10 ^ 9))
    = inject_Z 300000000
  ∧ rnd (1 # 2 ^ 1075) = 0
  ∧ rnd (3 # 2 ^ 1075) == 1 # 2 ^ 1073.
Proof. repeat split; by vm_compute. Qed.

Example fl_vectors :
  fl max_float = Fin max_float
  ∧ fl (max_float + inject_Z (2 ^ 969)) = Fin max_float
  ∧ fl (max_float + inject_Z (2 ^ 970)) = Inf false
  ∧ fl (- inject_Z (2 ^ 1024)) = Inf true.
Proof. repeat split; by vm_compute. Qed.

Lemma rnd_between (a b q : Q) :
  rnd a = a → rnd b = b → a <= q → q <= b → a <= rnd q ∧ rnd q <= b.
Proof.
  intros Ea Eb Ha Hb. pose proof (rnd_le a q Ha) as H1.
  pose proof (rnd_le q b Hb) as H2. rewrite Ea in H1. by rewrite Eb in H2.
Qed.

Lemma rnd_closed_unit (q : Q) : closed_unit q → closed_unit (rnd q).
Proof. intros [H0 H1]. by apply rnd_between. Qed.

(** *** Truncation and the remainder *)

Lemma trunc_nonneg q : 0 <= q → trunc q = Qfloor q.
Proof.
  destruct q as [n d]. unfold Qle, trunc. simpl. intros Hn.
  apply Z.quot_div_nonneg; lia.
Qed.

Lemma trunc_neg q : q < 0 → trunc q = (- Qfloor (- q))%Z.
Proof.
  destruct q as [n d]. unfold Qlt, trunc. simpl. intros Hn.
  rewrite <- (Z.opp_involutive n) at 1.
  rewrite Z.quot_opp_l by lia. f_equal.
  apply Z.quot_div_nonneg; lia.
Qed.

Lemma Qfloor_unique (q : Q) (z : Z) :
  inject_Z z <= q → q < inject_Z z + 1 → Qfloor q = z.
Proof.
  intros H1 H2.
  pose proof (Qfloor_le q) as F1. pose proof (Qlt_floor q) as F2.
  rewrite inject_Z_plus in F2. change (inject_Z 1) with 1 in F2.
  assert (A : (Qfloor q < z + 1)%Z).
  { rewrite Zlt_Qlt, inject_Z_plus. change (inject_Z 1) with 1. lra. }
  assert (B : (z < Qfloor q + 1)%Z).
  { rewrite Zlt_Qlt, inject_Z_plus. change (inject_Z 1) with 1. lra. }
  lia.
Qed.

(** The remainder [x % 1] is the fractional part [x - floor x]: exactly
    for [x >= 0], and rounded to binary64 for [x < 0]. *)
Lemma frac_nonneg (q : Q) : 0 <= q → Np.frac q == q - inject_Z (Qfloor q).
Proof.
  intros Hq. unfold Np.frac, Np.fmod1. rewrite (trunc_nonneg q Hq).
  pose proof (Qfloor_le q) as F1.
  assert (C : Qle_bool 0 (q - inject_Z (Qfloor q)) = true)
    by (apply Qle_bool_iff; lra).
  by rewrite C.
Qed.

Lemma frac_neg (q : Q) : q < 0 → Np.frac q == rnd (q - inject_Z (Qfloor q)).
Proof.
  intros Hq. unfold Np.frac, Np.fmod1. rewrite (trunc_neg q Hq).
  set (m := Qfloor (- q)).
  pose proof (Qfloor_le (- q)) as F1. pose proof (Qlt_floor (- q)) as F2.
  fold m in F1, F2. rewrite inject_Z_plus in F2. change (inject_Z 1) with 1 in F2.
  rewrite inject_Z_opp.
  destruct (Qle_bool 0 (q - - inject_Z m)) eqn:C.
  - apply Qle_bool_iff in C.
    assert (E : q == inject_Z (- m)) by (rewrite inject_Z_opp; lra).
    rewrite (Qfloor_comp _ _ E), Qfloor_Z, inject_Z_opp.
    assert (E0 : q - - inject_Z m == 0) by lra.
    rewrite (rnd_comp _ 0 E0). exact E0.
  - assert (N : ¬ 0 <= q - - inject_Z m) by (rewrite <- Qle_bool_iff; congruence).
    assert (E1 : inject_Z (- m - 1) == - inject_Z m - 1).
    { unfold Z.sub. rewrite inject_Z_plus, !inject_Z_opp. reflexivity. }
    assert (F : Qfloor q = (- m - 1)%Z) by (apply Qfloor_unique; lra).
    rewrite F. erewrite rnd_comp; [reflexivity|lra].
Qed.

Lemma frac_closed_unit (q : Q) : closed_unit (Np.frac q).
Proof.
  pose proof (Qfloor_le q) as F1. pose proof (Qlt_floor q) as F2.
  rewrite inject_Z_plus in F2. change (inject_Z 1) with 1 in F2.
  destruct (Qlt_le_dec q 0) as [Hneg|Hpos].
  - destruct (rnd_closed_unit (q - inject_Z (Qfloor q))) as [H0 H1].
    { split; lra. }
    pose proof (frac_neg q Hneg) as E. split; lra.
  - pose proof (frac_nonneg q Hpos) as E. split; lra.
Qed.

Lemma frac_comp (p q : Q) : p == q → Np.frac p == Np.frac q.
Proof.
  intros E. destruct (Qlt_le_dec p 0) as [Hneg|Hpos].
  - rewrite (frac_neg p Hneg), (frac_neg q) by lra.
    rewrite (Qfloor_comp _ _ E). erewrite rnd_comp; [reflexivity|lra].
  - rewrite (frac_nonneg p Hpos), (frac_nonneg q) by lra.
    rewrite (Qfloor_comp _ _ E). lra.
Qed.

End Float64Facts.

(** ** Bytes *)

Section BytesFacts.
Import Bytes.

Lemma Z_of_byte_range (b : byte) : 0 <= Z_of_byte b < 256.
Proof. unfold Z_of_byte. pose proof (Byte.to_N_bounded b). lia. Qed.

Lemma Z_of_byte_of_Z (z : Z) : Z_of_byte (byte_of_Z z) = z mod 256.
Proof.
  unfold Z_of_byte, byte_of_Z.
  assert (0 <= z mod 256 < 256) by (apply Z.mod_pos_bound; lia).
  destruct (Byte.of_N (Z.to_N (z mod 256))) as [c|] eqn:E.
  - apply Byte.to_of_N in E. rewrite E. lia.
  - apply Byte.of_N_None_iff in E. lia.
Qed.

Lemma length_be_digits (n : nat) (x : Z) : length (be_digits n x) = n.
Proof.
  revert x. induction n as [|n IH]; intros x; simpl; [done|].
  rewrite length_app, IH. simpl. lia.
Qed.

Lemma from_bytes_big_snoc (bs : list byte) (b : byte) :
  from_bytes_big (bs ++ [b]) = from_bytes_big bs * 256 + Z_of_byte b.
Proof. unfold from_bytes_big. by rewrite fold_left_app. Qed.

Lemma from_bytes_big_range (bs : list byte) :
  0 <= from_bytes_big bs < 256 ^ Z.of_nat (length bs).
Proof.
  induction bs as [|b bs IH] using rev_ind; [by compute|].
  rewrite from_bytes_big_snoc, length_app. simpl length.
  replace (Z.of_nat (length bs + 1)) with (Z.succ (Z.of_nat (length bs))) by lia.
  rewrite Z.pow_succ_r by lia.
  pose proof (Z_of_byte_range b). nia.
Qed.

Lemma from_bytes_big_be_digits (n : nat) (x : Z) :
  from_bytes_big (be_digits n x) = x mod 256 ^ Z.of_nat n.
Proof.
  revert x. induction n as [|n IH]; intros x.
  - simpl. by rewrite Z.mod_1_r.
  - cbn [be_digits]. rewrite from_bytes_big_snoc, IH, Z_of_byte_of_Z.
    replace (Z.of_nat (S n)) with (Z.succ (Z.of_nat n)) by lia.
    rewrite Z.pow_succ_r by lia.
    rewrite Z.rem_mul_r by lia. lia.
Qed.

Lemma slices_aux_fuel {A} (k fuel1 fuel2 : nat) (l : list A) :
  k ≠ 0%nat → (length l ≤ fuel1)%nat → (length l ≤ fuel2)%nat →
  slices_aux fuel1 k l = slices_aux fuel2 k l.
Proof.
  intros Hk. revert fuel2 l.
  induction fuel1 as [|fuel1 IH]; intros fuel2 l H1 H2.
  - destruct l; [by destruct fuel2|simpl in H1; lia].
  - destruct l as [|a l]; [by destruct fuel2|].
    destruct fuel2 as [|fuel2]; [simpl in H2; lia|].
    cbn [slices_aux]. f_equal.
    apply IH; rewrite length_drop; simpl in *; lia.
Qed.

Lemma slices_app {A} (k : nat) (c l : list A) :
  k ≠ 0%nat → length c = k → slices k (c ++ l) = c :: slices k l.
Proof.
  intros Hk Hc. unfold slices.
  destruct c as [|a c]; [simpl in Hc; lia|].
  cbn [app length slices_aux]. f_equal.
  - change (a :: c ++ l) with ((a :: c) ++ l). by rewrite take_app_length'.
  - change (a :: c ++ l) with ((a :: c) ++ l).
    rewrite drop_app_length' by done.
    apply slices_aux_fuel; [done| |done]. rewrite length_app. lia.
Qed.

Lemma slices_concat {A} (k : nat) (cs : list (list A)) :
  k ≠ 0%nat → Forall (fun c => length c = k) cs → slices k (concat cs) = cs.
Proof.
  intros Hk. induction 1 as [|c cs Hc _ IH]; [done|].
  simpl. by rewrite slices_app, IH.
Qed.

Lemma slices_aux_width {A} (fuel k : nat) (l : list A) :
  Forall (fun c => (length c ≤ k)%nat) (slices_aux fuel k l).
Proof.
  revert l. induction fuel as [|fuel IH]; intros l; [constructor|].
  destruct l as [|a l]; [constructor|].
  cbn [slices_aux]. constructor; [|apply IH].
  rewrite length_take. lia.
Qed.

End BytesFacts.

(** ** The digest *)

Section DigestFacts.
Import Bytes SHA256.

Lemma digest_of_slices (s : hstate) :
  slices 4 (digest_of s) =
  map (be_digits 4) [ha s; hb s; hc s; hd s; he s; hf s; hg s; hh s].
Proof.
  unfold digest_of. rewrite flat_map_concat_map.
  apply slices_concat; [done|].
  cbn [map]. repeat constructor; apply length_be_digits.
Qed.

(** The digests of the empty message and of ["abc"] are the published ones. *)
Example sha256_empty :
  map Z_of_byte (sha256 []) =
  [0xe3; 0xb0; 0xc4; 0x42; 0x98; 0xfc; 0x1c; 0x14;
   0x9a; 0xfb; 0xf4; 0xc8; 0x99; 0x6f; 0xb9; 0x24;
   0x27; 0xae; 0x41; 0xe4; 0x64; 0x9b; 0x93; 0x4c;
   0xa4; 0x95; 0x99; 0x1b; 0x78; 0x52; 0xb8; 0x55].
Proof. vm_compute. reflexivity. Qed.

Example sha256_abc :
  map Z_of_byte (sha256 ["a"; "b"; "c"]%byte) =
  [0xba; 0x78; 0x16; 0xbf; 0x8f; 0x01; 0xcf; 0xea;
   0x41; 0x41; 0x40; 0xde; 0x5d; 0xae; 0x22; 0x23;
   0xb0; 0x03; 0x61; 0xa3; 0x96; 0x17; 0x7a; 0x9c;
   0xb4; 0x10; 0xff; 0x61; 0xf2; 0x00; 0x15; 0xad].
Proof. vm_compute. reflexivity. Qed.

(** A message of 120 bytes, which takes three blocks. *)
Example sha256_three_blocks :
  map Z_of_byte (sha256 (replicate 120 "a"%byte)) =
  [47; 61; 51; 84; 50; 199; 11; 88; 10; 240; 232; 225; 179; 103; 74; 124;
   2; 13; 104; 58; 165; 247; 58; 170; 237; 253; 197; 90; 249; 4; 194; 28].
Proof. vm_compute. reflexivity. Qed.

Lemma length_sha256 (msg : list byte) : length (sha256 msg) = 32%nat.
Proof.
  unfold sha256, digest_of. cbn [flat_map].
  rewrite !length_app, !length_be_digits. done.
Qed.

Lemma length_normalise_sha256 (msg : list byte) :
  length (normalise (sha256 msg)) = 8%nat.
Proof.
  unfold normalise, sha256. by rewrite length_map, digest_of_slices.
Qed.

Lemma normalise_unit_interval (hashed : list byte) :
  Forall unit_interval (normalise hashed).
Proof.
  unfold normalise. apply Forall_map.
  eapply Forall_impl; [apply slices_aux_width|].
  intros c Hc. cbn beta in Hc |- *.
  pose proof (from_bytes_big_range c) as [H0 H1].
  assert (from_bytes_big c < 2 ^ 32) as H2.
  { eapply Z.lt_le_trans; [exact H1|].
    change (2 ^ 32) with (256 ^ 4). apply Z.pow_le_mono_r; lia. }
  change (2 ^ 32) with 4294967296 in *.
  unfold unit_interval, Qdiv, Qmult, Qinv, Qle, Qlt. simpl. lia.
Qed.

End DigestFacts.

(** ** Shapes of the arrays *)

Section ShapeFacts.
Local Open Scope nat_scope.

Lemma shape_rows n m A i row : shape n m A → A !! i = Some row → length row = m.
Proof.
  intros [_ HA] Hi. rewrite Forall_lookup in HA. by eapply (HA i row).
Qed.

Lemma shape_zip_with (f : Q → Q → Q) n m A B :
  shape n m A → shape n m B → shape n m (zip_with (zip_with f) A B).
Proof.
  intros [HA1 HA2] [HB1 HB2]. split.
  - rewrite length_zip_with. lia.
  - apply Forall_lookup. intros i row Hi.
    apply lookup_zip_with_Some in Hi as (ra & rb & -> & Ha & Hb).
    rewrite length_zip_with.
    rewrite Forall_lookup in HA2, HB2.
    rewrite (HA2 _ _ Ha), (HB2 _ _ Hb). lia.
Qed.

Lemma shape_imap (f : nat → nat → Q → Q) n m A :
  shape n m A → shape n m (imap (fun i row => imap (f i) row) A).
Proof.
  intros [HA1 HA2]. split; [by rewrite length_imap|].
  apply Forall_lookup. intros i row Hi.
  rewrite list_lookup_imap in Hi.
  destruct (A !! i) as [r|] eqn:E; [|done].
  simpl in Hi. injection Hi as <-. rewrite length_imap.
  rewrite Forall_lookup in HA2. by eapply HA2.
Qed.

Lemma shape_scale c n m A : shape n m A → shape n m (Np.scale c A).
Proof.
  intros [HA1 HA2]. split; [by unfold Np.scale; rewrite length_map|].
  unfold Np.scale. apply Forall_map. eapply Forall_impl; [exact HA2|].
  intros row Hrow. cbn beta in *. by rewrite length_map.
Qed.

Lemma shape_ones n m : shape n m (Np.ones n m).
Proof.
  unfold Np.ones. split; [apply length_replicate|].
  apply Forall_replicate, length_replicate.
Qed.

Lemma shape_fill_diagonal n m A d :
  shape n m A → shape n m (Np.fill_diagonal A d).
Proof.
  intros [HA1 HA2]. split; [by unfold Np.fill_diagonal; rewrite length_imap|].
  apply Forall_lookup. intros i row Hi. unfold Np.fill_diagonal in Hi.
  rewrite list_lookup_imap in Hi.
  destruct (A !! i) as [r|] eqn:E; [|done].
  simpl in Hi. injection Hi as <-.
  rewrite Forall_lookup in HA2. specialize (HA2 _ _ E).
  destruct (d !! i); [by rewrite length_insert|done].
Qed.

Lemma length_dot T V : length (Np.dot T V) = length T.
Proof. unfold Np.dot. by rewrite length_map. Qed.

End ShapeFacts.

(** ** Gather and scatter *)

Section IndexFacts.
Local Open Scope nat_scope.

Lemma mapM_result_cons {A B} (f : A → result B) (x : A) (l : list A) :
  mapM f (x :: l) = y ← f x; k ← mapM f l; mret (y :: k).
Proof. reflexivity. Qed.

Lemma take_idx_ok (U : vector) (idx : list nat) :
  Forall (fun i => i < length U) idx →
  ∃ us, Np.take_idx U idx = Ok us
        ∧ length us = length idx
        ∧ ∀ p i, idx !! p = Some i → us !! p = U !! i.
Proof.
  unfold Np.take_idx.
  induction 1 as [|i idx Hi _ (us & Hus & Hlen & Hget)].
  - exists []. by repeat split.
  - destruct (lookup_lt_is_Some_2 U i Hi) as [x Hx].
    exists (x :: us). rewrite mapM_result_cons, Hx, Hus.
    repeat split; [simpl; lia|].
    intros [|p] j Hp; simpl in *; [by injection Hp as <-|by apply Hget].
Qed.

Lemma put_idx_ok (idx : list nat) (V vals : vector) :
  Forall (fun i => i < length V) idx →
  length vals = length idx →
  ∃ V', Np.put_idx V idx vals = Ok V'
        ∧ length V' = length V
        ∧ (∀ i, i ∉ idx → V' !! i = V !! i)
        ∧ (NoDup idx → ∀ p i, idx !! p = Some i → V' !! i = vals !! p).
Proof.
  revert V vals. induction idx as [|i idx IH]; intros V vals Hidx Hlen.
  - exists V. destruct vals; [|done]. by repeat split.
  - destruct vals as [|x vals]; [done|].
    apply Forall_cons in Hidx as [Hi Hidx].
    cbn [Np.put_idx]. rewrite decide_True by done.
    destruct (IH (<[i:=x]> V) vals) as (V' & HV' & HlenV' & Hout & Hin).
    { by rewrite length_insert. }
    { simpl in Hlen. lia. }
    exists V'. rewrite length_insert in HlenV'.
    repeat split; [done|done| |].
    + intros j Hj. apply not_elem_of_cons in Hj as [Hne Hj].
      rewrite Hout by done. by rewrite list_lookup_insert_ne.
    + intros Hnd p j Hp. apply NoDup_cons in Hnd as [Hni Hnd].
      destruct p as [|p]; simpl in Hp |- *.
      * injection Hp as <-. rewrite Hout by done.
        by rewrite list_lookup_insert_eq.
      * by apply Hin.
Qed.

End IndexFacts.

(** ** The raw generator *)

Section GeneratorFacts.

Context {G : Type}.
Variable uniform : Q → Q → G → Q * G.
Variable permutation : nat → G → list nat * G.
Variable tanh : Q → Q.

Lemma length_uniform_vec low high n g :
  length (uniform_vec uniform low high n g).1 = n.
Proof.
  revert g. induction n as [|n IH]; intros g; [done|].
  cbn [uniform_vec]. destruct (uniform low high g) as [x g1].
  specialize (IH g1). destruct (uniform_vec uniform low high n g1) as [xs g2].
  simpl in *. by rewrite IH.
Qed.

Lemma shape_uniform_mat low high n m g :
  shape n m (uniform_mat uniform low high n m g).1.
Proof.
  revert g. induction n as [|n IH]; intros g; [by split|].
  cbn [uniform_mat].
  pose proof (length_uniform_vec low high m g) as Hrow.
  destruct (uniform_vec uniform low high m g) as [row g1].
  specialize (IH g1). destruct (uniform_mat uniform low high n m g1) as [rows g2].
  destruct IH as [IH1 IH2]. simpl in *.
  split; [simpl; by f_equal|by constructor].
Qed.

Lemma initialise_ok N g :
  (0 <= N) →
  ∃ T V g', initialise uniform N g = Ok ((T, V), g')
            ∧ shape (Z.to_nat N) (Z.to_nat N) T
            ∧ length V = Z.to_nat N.
Proof.
  intros HN. unfold initialise, random_uniform_matrix, random_uniform_vector.
  unfold_monad.
  assert ((N <? 0) = false) as -> by lia. cbn [orb].
  pose proof (shape_uniform_mat (-1) 1 (Z.to_nat N) (Z.to_nat N) g) as HT.
  destruct (uniform_mat _ _ _ _ _ g) as [T g1].
  pose proof (length_uniform_vec (-1) 1 (Z.to_nat N) g1) as HV.
  destruct (uniform_vec _ _ _ _ g1) as [V g2].
  eexists _, _, _. split; [done|]. split; [|done].
  by apply shape_fill_diagonal.
Qed.

Lemma initialise_negative N g :
  (N < 0) → initialise uniform N g = Raise ValueError.
Proof.
  intros HN. unfold initialise, random_uniform_matrix. unfold_monad.
  by assert ((N <? 0) = true) as -> by lia.
Qed.

Lemma shape_perturb N delta T :
  shape (Z.to_nat N) (Z.to_nat N) T →
  shape (Z.to_nat N) (Z.to_nat N) (perturb N delta T).
Proof.
  intros HT. unfold perturb, Np.mat_sub, Np.mat_add.
  repeat apply shape_zip_with; try done;
    apply shape_scale, shape_imap, shape_ones.
Qed.

(** *** Number extraction *)

Lemma extract_finite N L T V :
  (L * N ≠ 0) →
  extract tanh N L T V =
  Fin (Np.frac (Float64.rnd (1000 * Float64.rnd
         (Np.sum (map tanh (Np.dot T V)) / Float64.rnd (inject_Z (L * N)))))).
Proof.
  intros HLN. unfold extract, Np.div_int.
  by assert ((L * N =? 0) = false) as -> by lia.
Qed.

Lemma extract_nan N L T V : (L * N = 0) → extract tanh N L T V = NaN.
Proof.
  intros HLN. unfold extract, Np.div_int. rewrite HLN. cbn [Z.eqb].
  by destruct (Qeq_bool _ 0).
Qed.

(** *** The activation loop *)

(** The contract of [np.random.permutation]. *)
Hypothesis permutation_spec : ∀ n g, Permutation (permutation n g).1 (seq 0 n).

Lemma random_choice_ok N g :
  (1 <= N) →
  ∃ idx g', random_choice permutation N (N / 2 + 1) g = Ok (idx, g')
            ∧ NoDup idx
            ∧ length idx = Z.to_nat (N / 2 + 1)
            ∧ Forall (fun i => (i < Z.to_nat N)%nat) idx.
Proof.
  intros HN. unfold random_choice.
  assert (0 <= N / 2 < N) as Hhalf.
  { split; [apply Z.div_pos; lia|apply Z.div_lt; lia]. }
  assert ((N <=? 0) = false) as -> by lia.
  assert ((N <? N / 2 + 1) = false) as -> by lia.
  assert ((N / 2 + 1 <? 0) = false) as -> by lia.
  cbn [andb orb].
  pose proof (permutation_spec (Z.to_nat N) g) as Hp.
  destruct (permutation (Z.to_nat N) g) as [p g']. simpl in Hp.
  assert (NoDup p) as Hnd by (rewrite Hp; apply NoDup_seq).
  assert (length p = Z.to_nat N) as Hlen
    by (by rewrite (Permutation_length Hp), length_seq).
  exists (take (Z.to_nat (N / 2 + 1)) p), g'. repeat split.
  - apply (sublist_NoDup _ p Hnd), sublist_take.
  - rewrite length_take. lia.
  - apply Forall_take, Forall_forall. intros i Hi.
    rewrite Hp in Hi. apply elem_of_seq in Hi. lia.
Qed.

Lemma lookup_map {A B} (f : A → B) (l : list A) (i : nat) :
  map f l !! i = f <$> l !! i.
Proof.
  revert i. induction l as [|x l IH]; intros [|i]; simpl; done.
Qed.

Lemma activate_ok N b T I V g :
  (1 <= N) →
  length T = Z.to_nat N → length I = Z.to_nat N → length V = Z.to_nat N →
  ∃ idx V' g',
    random_choice permutation N (N / 2 + 1) g = Ok (idx, g')
    ∧ activate permutation tanh N b T I V g = Ok (V', g')
    ∧ length V' = Z.to_nat N
    ∧ (∀ i, i ∈ idx →
         V' !! i = (fun u => tanh (b * u)%Q) <$> Np.vec_sub (Np.dot T V) I !! i)
    ∧ (∀ i, i ∉ idx → V' !! i = V !! i).
Proof.
  intros HN HT HI HV.
  destruct (random_choice_ok N g HN) as (idx & g' & Hidx & Hnd & Hlen & Hlt).
  set (U := Np.vec_sub (Np.dot T V) I).
  assert (length U = Z.to_nat N) as HU.
  { unfold U, Np.vec_sub. rewrite length_zip_with, length_dot. lia. }
  destruct (take_idx_ok U idx) as (Ui & HUi & HlenUi & HgetUi).
  { by rewrite HU. }
  destruct (put_idx_ok idx V (map tanh (map (Qmult b) Ui)))
    as (V' & HV' & HlenV' & Hout & Hin).
  { by rewrite HV. }
  { by rewrite !length_map. }
  exists idx, V', g'. split; [done|]. split.
  { unfold activate. unfold_monad. rewrite Hidx. fold U.
    rewrite HUi. by rewrite HV'. }
  split; [lia|]. split; [|done].
  intros i Hi. apply list_elem_of_lookup in Hi as [p Hp].
  rewrite (Hin Hnd p i Hp), !lookup_map, (HgetUi p i Hp).
  by destruct (U !! i).
Qed.

Lemma activation_ok n N b T I V g :
  (1 <= N) →
  length T = Z.to_nat N → length I = Z.to_nat N → length V = Z.to_nat N →
  ∃ V' g', activation permutation tanh n N b T I V g = Ok (V', g')
           ∧ length V' = Z.to_nat N.
Proof.
  intros HN HT HI. revert V g.
  induction n as [|n IH]; intros V g HV.
  - by exists V, g.
  - destruct (activate_ok N b T I V g) as (idx & V1 & g1 & _ & H1 & HV1 & _);
      try done.
    destruct (IH V1 g1 HV1) as (V' & g' & H' & HV').
    exists V', g'. split; [|done].
    cbn [activation]. unfold_monad. by rewrite H1.
Qed.

(** *** The output loop *)

Lemma extract_raw_sample_ok N L T V : raw_sample_ok N L (extract tanh N L T V).
Proof.
  unfold raw_sample_ok. case_decide as HLN.
  - by apply extract_nan.
  - rewrite extract_finite by done. eexists. split; [done|].
    apply frac_closed_unit.
Qed.

Lemma output_step_ok N L b delta I T V g :
  (1 <= N) →
  shape (Z.to_nat N) (Z.to_nat N) T →
  length I = Z.to_nat N → length V = Z.to_nat N →
  ∃ V' g',
    activation permutation tanh (Z.to_nat L) N b (perturb N delta T) I V g
      = Ok (V', g')
    ∧ output_step permutation tanh N L b delta I T V g
      = Ok ((perturb N delta T, V',
             extract tanh N L (perturb N delta T) V'), g')
    ∧ length V' = Z.to_nat N.
Proof.
  intros HN HT HI HV.
  destruct (activation_ok (Z.to_nat L) N b (perturb N delta T) I V g)
    as (V' & g' & H' & HV'); try done.
  { by destruct (shape_perturb N delta T HT). }
  exists V', g'. split; [done|]. split; [|done].
  unfold output_step. unfold_monad. by rewrite H'.
Qed.


Lemma output_loop_S n N L b delta I T V outs g :
  output_loop permutation tanh (S n) N L b delta I T V outs g =
  match output_step permutation tanh N L b delta I T V g with
  | Ok ((T1, V1, x), g1) =>
      output_loop permutation tanh n N L b delta I T1 V1 (outs ++ [x]) g1
  | Raise e => Raise e
  end.
Proof.
  cbn [output_loop]. unfold_monad.
  by destruct (output_step _ _ _ _ _ _ _ _ _ g) as [[[[T1 V1] x] g1]|e].
Qed.

(** Running [n + 1] output steps is running [n] of them and then one more. *)
Lemma output_loop_snoc n N L b delta I T V outs g :
  output_loop permutation tanh (S n) N L b delta I T V outs g =
  match output_loop permutation tanh n N L b delta I T V outs g with
  | Ok ((T1, V1, outs1), g1) =>
      match output_step permutation tanh N L b delta I T1 V1 g1 with
      | Ok ((T2, V2, x), g2) => Ok ((T2, V2, outs1 ++ [x]), g2)
      | Raise e => Raise e
      end
  | Raise e => Raise e
  end.
Proof.
  revert T V outs g. induction n as [|n IH]; intros T V outs g.
  - rewrite output_loop_S. cbn [output_loop]. unfold_monad.
    by destruct (output_step _ _ _ _ _ _ _ _ _ g) as [[[[T1 V1] x] g1]|e].
  - rewrite (output_loop_S (S n)), (output_loop_S n _ _ _ _ _ T V outs g).
    destruct (output_step _ _ _ _ _ _ _ _ _ g) as [[[[T1 V1] x] g1]|e]; [|done].
    apply IH.
Qed.

Lemma output_loop_ok n N L b delta I T V outs g :
  (1 <= N) →
  shape (Z.to_nat N) (Z.to_nat N) T →
  length I = Z.to_nat N → length V = Z.to_nat N →
  ∃ V' samples g',
    output_loop permutation tanh n N L b delta I T V outs g
      = Ok ((Nat.iter n (perturb N delta) T, V', outs ++ samples), g')
    ∧ length V' = Z.to_nat N
    ∧ length samples = n
    ∧ Forall (raw_sample_ok N L) samples.
Proof.
  intros HN HT HI. revert T V outs g HT.
  induction n as [|n IH]; intros T V outs g HT HV.
  - exists V, [], g. rewrite app_nil_r. by repeat split.
  - destruct (output_step_ok N L b delta I T V g)
      as (V1 & g1 & _ & Hstep & HV1); try done.
    destruct (IH (perturb N delta T) V1
                (outs ++ [extract tanh N L (perturb N delta T) V1]) g1)
      as (V' & samples & g' & Hloop & HV' & Hlen & Hok);
      [by apply shape_perturb|done|].
    exists V', (extract tanh N L (perturb N delta T) V1 :: samples), g'.
    repeat split; [|done|by simpl; f_equal|].
    + cbn [output_loop]. unfold_monad. rewrite Hstep, Hloop.
      by rewrite Nat.iter_succ_r, <- app_assoc.
    + constructor; [apply extract_raw_sample_ok|done].
Qed.

Lemma hopfield_run_ok num_outputs N L b delta g :
  (1 <= N) →
  ∃ T0 V0 g0 V outputs g',
    initialise uniform N g = Ok ((T0, V0), g0)
    ∧ hopfield_run uniform permutation tanh num_outputs N L b delta g
      = Ok ((Nat.iter (Z.to_nat num_outputs) (perturb N delta) T0, V, outputs),
            g')
    ∧ shape (Z.to_nat N) (Z.to_nat N) T0
    ∧ length outputs = Z.to_nat num_outputs
    ∧ Forall (raw_sample_ok N L) outputs.
Proof.
  intros HN.
  destruct (initialise_ok N g) as (T0 & V0 & g0 & Hinit & HT0 & HV0); [lia|].
  destruct (output_loop_ok (Z.to_nat num_outputs) N L b delta
              (Np.zeros (Z.to_nat N)) T0 V0 [] g0)
    as (V & outputs & g' & Hloop & _ & Hlen & Hok); try done.
  { apply length_replicate. }
  exists T0, V0, g0, V, outputs, g'.
  split; [done|]. split; [|done].
  unfold hopfield_run. unfold_monad. by rewrite Hinit, Hloop.
Qed.

Lemma hopfield_prng_ok num_outputs N L b delta g :
  (1 <= N) →
  ∃ outputs g',
    hopfield_prng uniform permutation tanh num_outputs N L b delta g
      = Ok (outputs, g')
    ∧ length outputs = Z.to_nat num_outputs
    ∧ Forall (raw_sample_ok N L) outputs.
Proof.
  intros HN.
  destruct (hopfield_run_ok num_outputs N L b delta g HN)
    as (T0 & V0 & g0 & V & outputs & g' & _ & Hrun & _ & Hlen & Hok).
  exists outputs, g'. split; [|done].
  unfold hopfield_prng. unfold_monad. by rewrite Hrun.
Qed.

End GeneratorFacts.

(** ** Serialisation *)

Section SerializeFacts.
Import Bytes.

(** The rounded product [val * 10**9] of a sample in [[0, 1]] lies between
    [0] and [10^9], which are binary64 numbers. *)
Lemma scaled_sample_range v :
  closed_unit v →
  (0 <= Float64.rnd (v * inject_Z (10 ^ 9))
   ∧ Float64.rnd (v * inject_Z (10 ^ 9)) <= inject_Z (10 ^ 9))%Q.
Proof.
  intros [H0 H1]. set (c := inject_Z (10 ^ 9)).
  assert (0 < c)%Q as Hc by reflexivity.
  apply rnd_between; [by vm_compute|by vm_compute| |]; nra.
Qed.

Lemma quantise_range v : closed_unit v → 0 <= quantise v <= 10 ^ 9.
Proof.
  intros Hv. destruct (scaled_sample_range v Hv) as [Hlo Hhi]. unfold quantise.
  split.
  - change 0 with (Qfloor 0). by apply Qfloor_resp_le.
  - rewrite Zle_Qle. eapply Qle_trans; [apply Qfloor_le|exact Hhi].
Qed.

Lemma to_int_quantise v :
  closed_unit v →
  Np.to_int (Np.mul (Fin v) (Fin (inject_Z (10 ^ 9)))) = Ok (quantise v).
Proof.
  intros Hv. destruct (scaled_sample_range v Hv) as [Hlo _].
  unfold quantise. cbn [Np.mul Np.to_int]. f_equal.
  by apply trunc_nonneg.
Qed.

Lemma to_bytes_quantise v :
  closed_unit v → to_bytes 4 (quantise v) = Ok (be_digits 4 (quantise v)).
Proof.
  intros Hv. pose proof (quantise_range v Hv) as [H0 H1].
  unfold to_bytes.
  assert ((quantise v <? 0) = false) as -> by lia.
  assert ((256 ^ Z.of_nat 4 <=? quantise v) = false) as ->; [|done].
  change (256 ^ Z.of_nat 4) with 4294967296.
  change (10 ^ 9) with 1000000000 in H1. lia.
Qed.

Lemma serialize_ok (vs : list Q) :
  Forall closed_unit vs →
  serialize (map Fin vs) = Ok (concat (map (fun v => be_digits 4 (quantise v)) vs)).
Proof.
  unfold serialize. intros Hvs.
  assert (mapM (fun val =>
            x ← Np.to_int (Np.mul val (Fin (inject_Z (10 ^ 9))));
            to_bytes 4 x) (map Fin vs)
          = Ok (map (fun v => be_digits 4 (quantise v)) vs)) as ->; [|done].
  induction Hvs as [|v vs Hv _ IH]; [done|].
  cbn [map]. rewrite mapM_result_cons, IH, to_int_quantise by done.
  unfold_monad. by rewrite to_bytes_quantise.
Qed.

Lemma decode_quantise (vs : list Q) :
  Forall closed_unit vs →
  map from_bytes_big (slices 4 (concat (map (fun v => be_digits 4 (quantise v)) vs)))
  = map quantise vs.
Proof.
  intros Hvs. rewrite slices_concat; [|done|].
  - rewrite map_map. apply map_ext_Forall.
    eapply Forall_impl; [exact Hvs|]. intros v Hv. cbn beta.
    rewrite from_bytes_big_be_digits.
    pose proof (quantise_range v Hv) as [H0 H1].
    apply Z.mod_small. change (256 ^ Z.of_nat 4) with 4294967296.
    change (10 ^ 9) with 1000000000 in H1. lia.
  - apply Forall_map, Forall_forall. intros v _. apply length_be_digits.
Qed.

End SerializeFacts.

(** ** The conditioned generator *)

Lemma length_slice_to {A} (n : Z) (l : list A) :
  (0 <= n) → Z.of_nat (length (slice_to n l)) = Z.min n (Z.of_nat (length l)).
Proof.
  intros Hn. unfold slice_to.
  assert ((n <? 0) = false) as -> by lia.
  rewrite length_take. lia.
Qed.

Lemma finite_samples (N L : Z) (outputs : list npfloat) :
  (L * N ≠ 0) →
  Forall (raw_sample_ok N L) outputs →
  ∃ vs, outputs = map Fin vs ∧ Forall closed_unit vs.
Proof.
  intros HLN. induction 1 as [|x outputs Hx _ (vs & -> & Hvs)].
  - by exists [].
  - unfold raw_sample_ok in Hx. rewrite decide_False in Hx by done.
    destruct Hx as (q & -> & Hq). exists (q :: vs). by split; [|constructor].
Qed.

Section ConditionedFacts.

Context {G : Type}.
Variable uniform : Q → Q → G → Q * G.
Variable permutation : nat → G → list nat * G.
Variable tanh : Q → Q.
Hypothesis permutation_spec : ∀ n g, Permutation (permutation n g).1 (seq 0 n).

Lemma hopfield_sha_prng_ok num_outputs g :
  ∃ vs g',
    hopfield_prng uniform permutation tanh num_outputs 100 10 (1 # 10) (1 # 100) g
      = Ok (map Fin vs, g')
    ∧ length vs = Z.to_nat num_outputs
    ∧ Forall closed_unit vs
    ∧ hopfield_sha_prng uniform permutation tanh num_outputs g
      = Ok (slice_to num_outputs
              (normalise (SHA256.sha256 (byte_data_of vs))), g').
Proof.
  destruct (hopfield_prng_ok uniform permutation tanh permutation_spec
              num_outputs 100 10 (1 # 10) (1 # 100) g)
    as (outputs & g' & Hraw & Hlen & Hok); [lia|].
  destruct (finite_samples 100 10 outputs) as (vs & -> & Hvs); [done|done|].
  exists vs, g'. rewrite length_map in Hlen.
  split; [done|]. split; [done|]. split; [done|].
  unfold hopfield_sha_prng. unfold_monad.
  by rewrite Hraw, serialize_ok.
Qed.

(** A negative request is read by the final slice as "all but the last
    [-num_outputs]" of the eight digest words. *)
Remark hopfield_sha_prng_negative num_outputs g :
  (num_outputs < 0) →
  ∃ out g',
    hopfield_sha_prng uniform permutation tanh num_outputs g = Ok (out, g')
    ∧ Z.of_nat (length out) = Z.max 0 (8 + num_outputs).
Proof.
  intros Hn.
  destruct (hopfield_sha_prng_ok num_outputs g) as (vs & g' & _ & _ & _ & ->).
  eexists _, g'. split; [done|].
  unfold slice_to. assert ((num_outputs <? 0) = true) as -> by lia.
  rewrite length_take, length_normalise_sha256. lia.
Qed.

End ConditionedFacts.

(** ** The weight perturbation *)

Section PerturbFacts.
Local Open Scope nat_scope.

Lemma entry_Some (A : matrix) i j row t :
  A !! i = Some row → row !! j = Some t → entry A i j = t.
Proof. intros Hi Hj. unfold entry. rewrite Hi. simpl. by rewrite Hj. Qed.

Lemma shape_lookup n m (A : matrix) i j :
  shape n m A → i < n → j < m →
  ∃ row t, A !! i = Some row ∧ row !! j = Some t.
Proof.
  intros HA Hi Hj. destruct HA as [HA1 HA2].
  destruct (lookup_lt_is_Some_2 A i) as [row Hrow]; [lia|].
  rewrite Forall_lookup in HA2. specialize (HA2 _ _ Hrow).
  destruct (lookup_lt_is_Some_2 row j) as [t Ht]; [lia|].
  by exists row, t.
Qed.

Lemma entry_zip_with (f : Q → Q → Q) n m (A B : matrix) i j :
  shape n m A → shape n m B → i < n → j < m →
  entry (zip_with (zip_with f) A B) i j = f (entry A i j) (entry B i j).
Proof.
  intros HA HB Hi Hj.
  destruct (shape_lookup n m A i j) as (ra & ta & Hra & Hta); try done.
  destruct (shape_lookup n m B i j) as (rb & tb & Hrb & Htb); try done.
  rewrite (entry_Some A i j ra ta), (entry_Some B i j rb tb) by done.
  apply (entry_Some _ i j (zip_with f ra rb)).
  - by rewrite lookup_zip_with, Hra, Hrb.
  - by rewrite lookup_zip_with, Hta, Htb.
Qed.

Lemma entry_scale c n m (A : matrix) i j :
  shape n m A → i < n → j < m →
  entry (Np.scale c A) i j = (c * entry A i j)%Q.
Proof.
  intros HA Hi Hj.
  destruct (shape_lookup n m A i j) as (ra & ta & Hra & Hta); try done.
  rewrite (entry_Some A i j ra ta) by done.
  apply (entry_Some _ i j (map (Qmult c) ra)).
  - unfold Np.scale. by rewrite lookup_map, Hra.
  - by rewrite lookup_map, Hta.
Qed.

Lemma entry_imap (f : nat → nat → Q → Q) n m (A : matrix) i j :
  shape n m A → i < n → j < m →
  entry (imap (fun i row => imap (f i) row) A) i j = f i j (entry A i j).
Proof.
  intros HA Hi Hj.
  destruct (shape_lookup n m A i j) as (ra & ta & Hra & Hta); try done.
  rewrite (entry_Some A i j ra ta) by done.
  apply (entry_Some _ i j (imap (f i) ra)).
  - by rewrite list_lookup_imap, Hra.
  - by rewrite list_lookup_imap, Hta.
Qed.

Lemma entry_ones n m i j : i < n → j < m → entry (Np.ones n m) i j = 1%Q.
Proof.
  intros Hi Hj. apply (entry_Some _ i j (replicate m 1%Q)).
  - unfold Np.ones. by apply lookup_replicate_2.
  - by apply lookup_replicate_2.
Qed.

(** Each entry on or above the diagonal gains [delta], each entry below it
    loses [delta]. *)
Lemma perturb_entry N delta T i j :
  shape (Z.to_nat N) (Z.to_nat N) T → i < Z.to_nat N → j < Z.to_nat N →
  (entry (perturb N delta T) i j ==
   if decide (i ≤ j) then entry T i j + delta else entry T i j - delta)%Q.
Proof.
  intros HT Hi Hj. unfold perturb, Np.mat_sub, Np.mat_add.
  set (n := Z.to_nat N) in *.
  pose proof (shape_ones n n) as Hone.
  assert (shape n n (Np.scale delta (Np.triu 0 (Np.ones n n)))) as HA
    by by apply shape_scale, shape_imap.
  assert (shape n n (Np.scale delta (Np.tril (-1) (Np.ones n n)))) as HB
    by by apply shape_scale, shape_imap.
  rewrite (entry_zip_with Qminus n n), (entry_zip_with Qplus n n);
    try done; [|by apply shape_zip_with].
  rewrite !(entry_scale delta n n) by (done || by apply shape_imap).
  unfold Np.triu, Np.tril. rewrite !(entry_imap _ n n) by done.
  rewrite entry_ones by done.
  case_decide as Hij.
  - assert ((Z.of_nat j - Z.of_nat i >=? 0)%Z = true) as -> by lia.
    assert ((Z.of_nat j - Z.of_nat i <=? -1)%Z = false) as -> by lia.
    ring.
  - assert ((Z.of_nat j - Z.of_nat i >=? 0)%Z = false) as -> by lia.
    assert ((Z.of_nat j - Z.of_nat i <=? -1)%Z = true) as -> by lia.
    ring.
Qed.

End PerturbFacts.

(** ** Triangular sums *)

Section SumFacts.
Local Open Scope Q_scope.

Lemma sum_map_ext (f g : nat → Q) (l : list nat) :
  (∀ i, i ∈ l → f i == g i) → Np.sum (map f l) == Np.sum (map g l).
Proof.
  induction l as [|i l IH]; intros Hfg; simpl; [reflexivity|].
  rewrite (Hfg i) by apply list_elem_of_here.
  rewrite IH; [reflexivity|].
  intros k Hk. by apply Hfg, list_elem_of_further.
Qed.

Lemma sum_map_minus (f g : nat → Q) (l : list nat) :
  Np.sum (map (fun i => f i - g i) l) == Np.sum (map f l) - Np.sum (map g l).
Proof. induction l as [|i l IH]; simpl; [ring|]. rewrite IH. ring. Qed.

Lemma sum_map_plus_const (f : nat → Q) (c : Q) (l : list nat) :
  Np.sum (map (fun i => f i + c) l)
  == Np.sum (map f l) + inject_Z (Z.of_nat (length l)) * c.
Proof.
  induction l as [|i l IH]; [simpl; ring|].
  cbn [map Np.sum foldr length]. fold (Np.sum (map (fun i => f i + c) l)).
  fold (Np.sum (map f l)). rewrite IH, Nat2Z.inj_succ.
  unfold Z.succ. rewrite inject_Z_plus. ring.
Qed.

Lemma sum_over_ext n (f g : nat → Q) :
  (∀ i, (i < n)%nat → f i == g i) → sum_over n f == sum_over n g.
Proof.
  intros Hfg. apply sum_map_ext. intros i Hi. apply Hfg.
  apply elem_of_seq in Hi. lia.
Qed.

Lemma triangle_difference n T :
  upper_sum n T - lower_sum n T
  == sum_over n (fun i => sum_over n (signed_entry T i)).
Proof.
  unfold upper_sum, lower_sum, sum_over at 1 2 3.
  rewrite <- sum_map_minus. apply sum_map_ext. intros i _.
  unfold sum_over. by rewrite <- sum_map_minus.
Qed.

Lemma signed_entry_perturb N delta T i j :
  shape (Z.to_nat N) (Z.to_nat N) T →
  (i < Z.to_nat N)%nat → (j < Z.to_nat N)%nat →
  signed_entry (perturb N delta T) i j == signed_entry T i j + delta.
Proof.
  intros HT Hi Hj. unfold signed_entry.
  pose proof (perturb_entry N delta T i j HT Hi Hj) as H.
  repeat case_decide; try lia; rewrite H; ring.
Qed.

(** One perturbation raises [upper_sum - lower_sum] by [delta] for each of
    the [N * N] cells. *)
Lemma triangle_difference_perturb N delta T :
  shape (Z.to_nat N) (Z.to_nat N) T →
  upper_sum (Z.to_nat N) (perturb N delta T)
    - lower_sum (Z.to_nat N) (perturb N delta T)
  == upper_sum (Z.to_nat N) T - lower_sum (Z.to_nat N) T
     + inject_Z (Z.of_nat (Z.to_nat N) * Z.of_nat (Z.to_nat N)) * delta.
Proof.
  intros HT. set (n := Z.to_nat N) in *.
  rewrite !triangle_difference.
  transitivity (sum_over n (fun i =>
    sum_over n (signed_entry T i) + inject_Z (Z.of_nat n) * delta)).
  - apply sum_over_ext. intros i Hi.
    transitivity (sum_over n (fun j => signed_entry T i j + delta)).
    + apply sum_over_ext. intros j Hj. by apply signed_entry_perturb.
    + unfold sum_over. by rewrite sum_map_plus_const, length_seq.
  - unfold sum_over at 1 3. rewrite sum_map_plus_const, length_seq.
    rewrite inject_Z_mult. ring.
Qed.

Lemma triangle_difference_iter k N delta T :
  shape (Z.to_nat N) (Z.to_nat N) T →
  shape (Z.to_nat N) (Z.to_nat N) (Nat.iter k (perturb N delta) T)
  ∧ upper_sum (Z.to_nat N) (Nat.iter k (perturb N delta) T)
      - lower_sum (Z.to_nat N) (Nat.iter k (perturb N delta) T)
    == upper_sum (Z.to_nat N) T - lower_sum (Z.to_nat N) T
       + inject_Z (Z.of_nat k) * delta
         * inject_Z (Z.of_nat (Z.to_nat N) * Z.of_nat (Z.to_nat N)).
Proof.
  intros HT. induction k as [|k [IHs IHd]].
  - split; [done|]. simpl. ring.
  - cbn [Nat.iter nat_rect]. split; [by apply shape_perturb|].
    rewrite triangle_difference_perturb by done. rewrite IHd.
    rewrite Nat2Z.inj_succ. unfold Z.succ. rewrite inject_Z_plus. ring.
Qed.

End SumFacts.

(** ** Degenerate configurations *)

Section Degenerate.

Context {G : Type}.
Variable uniform : Q → Q → G → Q * G.
Variable permutation : nat → G → list nat * G.
Variable tanh : Q → Q.

(** With [L <= 0] the activation loop is empty and nothing can raise. *)
Lemma output_loop_idle n N L b delta I T V outs g :
  (L <= 0) →
  ∃ T' samples,
    output_loop permutation tanh n N L b delta I T V outs g
      = Ok ((T', V, outs ++ samples), g)
    ∧ length samples = n.
Proof.
  intros HL. revert T outs. induction n as [|n IH]; intros T outs.
  - exists T, []. by rewrite app_nil_r.
  - rewrite output_loop_S. unfold output_step.
    assert (Z.to_nat L = 0%nat) as -> by lia. cbn [activation]. unfold_monad.
    destruct (IH (perturb N delta T)
                (outs ++ [extract tanh N L (perturb N delta T) V]))
      as (T' & samples & -> & Hlen).
    exists T', (extract tanh N L (perturb N delta T) V :: samples).
    rewrite <- app_assoc. split; [done|]. simpl. by f_equal.
Qed.

(** With no neuron, the first draw of indices is refused. *)
Lemma output_loop_no_neuron n L b delta I T V outs g :
  (1 <= L) →
  output_loop permutation tanh (S n) 0 L b delta I T V outs g
  = Raise ValueError.
Proof.
  intros HL. rewrite output_loop_S. unfold output_step.
  destruct (Z.to_nat L) as [|l] eqn:El; [lia|].
  cbn [activation]. unfold activate, random_choice. unfold_monad. done.
Qed.

Lemma initialise_zero g : initialise uniform 0 g = Ok (([], []), g).
Proof. reflexivity. Qed.

Lemma hopfield_prng_zero_neurons num_outputs L b delta g :
  if decide (1 <= num_outputs ∧ 1 <= L)
  then hopfield_prng uniform permutation tanh num_outputs 0 L b delta g
       = Raise ValueError
  else ∃ outputs,
         hopfield_prng uniform permutation tanh num_outputs 0 L b delta g
           = Ok (outputs, g)
         ∧ length outputs = Z.to_nat num_outputs.
Proof.
  unfold hopfield_prng, hopfield_run. unfold_monad.
  rewrite initialise_zero. case_decide as Hc.
  - destruct Hc as [Hn HL].
    destruct (Z.to_nat num_outputs) as [|n] eqn:En; [lia|].
    by rewrite output_loop_no_neuron.
  - destruct (decide (L <= 0)) as [HL|HL].
    + destruct (output_loop_idle (Z.to_nat num_outputs) 0 L b delta
                  (Np.zeros (Z.to_nat 0)) [] [] [] g HL)
        as (T' & samples & -> & Hlen).
      by exists samples.
    + assert (Z.to_nat num_outputs = 0%nat) as -> by lia.
      by exists [].
Qed.

End Degenerate.

(** ** The concrete generator meets the contract *)

Lemma demo_permutation_spec n g :
  Permutation (Demo.permutation n g).1 (seq 0 n).
Proof.
  unfold Demo.permutation, rotate. cbn [fst].
  rewrite Permutation_app_comm. by rewrite take_drop.
Qed.

(** ** Two generators that are seeded alike *)

Section Simulation.

Context {G1 G2 : Type}.
Variable uniform1 : Q → Q → G1 → Q * G1.
Variable uniform2 : Q → Q → G2 → Q * G2.
Variable permutation1 : nat → G1 → list nat * G1.
Variable permutation2 : nat → G2 → list nat * G2.
Variable tanh : Q → Q.

(** [R] relates the states of two generators that answer every draw alike. *)
Variable R : G1 → G2 → Prop.
Hypothesis uniform_agree :
  ∀ low high g1 g2, R g1 g2 →
    (uniform1 low high g1).1 = (uniform2 low high g2).1
    ∧ R (uniform1 low high g1).2 (uniform2 low high g2).2.
Hypothesis permutation_agree :
  ∀ n g1 g2, R g1 g2 →
    (permutation1 n g1).1 = (permutation2 n g2).1
    ∧ R (permutation1 n g1).2 (permutation2 n g2).2.











End Simulation.



(** * The claims *)

Section Claims.

Context {G : Type}.
Variable uniform : Q → Q → G → Q * G.
Variable permutation : nat → G → list nat * G.
Variable tanh : Q → Q.
Hypothesis permutation_spec : ∀ n g, Permutation (permutation n g).1 (seq 0 n).

(** C1, as the code behaves: a request for nine conditioned outputs does not
    return nine values.  The digest yields eight numbers and the slice
    [[:num_outputs]] cannot give more, so [hopfield_sha_prng 9] returns a
    list of length eight, without raising. *)
Theorem nine_requested_eight_returned (g : G) :
  ∃ out g',
    hopfield_sha_prng uniform permutation tanh 9 g = Ok (out, g')
    ∧ length out = 8%nat.
Proof.
  destruct (hopfield_sha_prng_ok uniform permutation tanh permutation_spec 9 g)
    as (vs & g' & _ & _ & _ & Hsha).
  eexists _, g'. split; [exact Hsha|].
  pose proof (length_slice_to 9
    (normalise (SHA256.sha256 (byte_data_of vs)))) as Hlen.
  rewrite length_normalise_sha256 in Hlen. lia.
Qed.

(** C2: for every non-negative [num_outputs], [hopfield_sha_prng] raises no
    error and returns exactly [min(num_outputs, 8)] values: the raw samples
    are serialised and hashed, the 32-byte digest is read as eight 4-byte
    big-endian integers and that list is cut by [[:num_outputs]]. *)
Theorem hopfield_sha_prng_length (num_outputs : Z) (g : G) :
  (0 <= num_outputs) →
  ∃ raw_sequence byte_data out g',
    hopfield_prng uniform permutation tanh num_outputs 100 10 (1 # 10) (1 # 100) g
      = Ok (raw_sequence, g')
    ∧ serialize raw_sequence = Ok byte_data
    ∧ length (SHA256.sha256 byte_data) = 32%nat
    ∧ length (normalise (SHA256.sha256 byte_data)) = 8%nat
    ∧ out = take (Z.to_nat num_outputs) (normalise (SHA256.sha256 byte_data))
    ∧ hopfield_sha_prng uniform permutation tanh num_outputs g = Ok (out, g')
    ∧ Z.of_nat (length out) = Z.min num_outputs 8.
Proof.
  intros Hn.
  destruct (hopfield_sha_prng_ok uniform permutation tanh permutation_spec
              num_outputs g) as (vs & g' & Hraw & _ & Hvs & Hsha).
  exists (map Fin vs), (byte_data_of vs). eexists _, g'.
  split; [exact Hraw|].
  split; [by apply serialize_ok|].
  split; [apply length_sha256|].
  split; [apply length_normalise_sha256|].
  split; [reflexivity|].
  unfold slice_to in Hsha.
  assert ((num_outputs <? 0) = false) as Hge by lia. rewrite Hge in Hsha.
  split; [exact Hsha|].
  rewrite length_take, length_normalise_sha256. lia.
Qed.

(** C4: every value returned by [hopfield_sha_prng] lies in [[0, 1)]; the
    call returns for every [num_outputs]. *)
Theorem hopfield_sha_prng_unit_interval (num_outputs : Z) (g : G) :
  ∃ out g',
    hopfield_sha_prng uniform permutation tanh num_outputs g = Ok (out, g')
    ∧ Forall unit_interval out.
Proof.
  destruct (hopfield_sha_prng_ok uniform permutation tanh permutation_spec
              num_outputs g) as (vs & g' & _ & _ & _ & Hsha).
  eexists _, g'. split; [exact Hsha|].
  unfold slice_to. destruct (num_outputs <? 0);
    apply Forall_take, normalise_unit_interval.
Qed.


(** C6: each output step first replaces the matrix by its perturbation, in
    which every entry with row <= column has gained [delta] and every entry
    with row > column has lost [delta], the shape being unchanged; the
    activation loop and the extraction of that step then use the perturbed
    matrix and leave it as it is.  After a run the matrix is the initial one
    perturbed once per output. *)
Theorem perturbation_once_per_output (N L : Z) (b delta : Q) :
  (1 <= N) →
  (∀ I T V g,
     shape (Z.to_nat N) (Z.to_nat N) T →
     length I = Z.to_nat N → length V = Z.to_nat N →
     ∃ T' V' x g',
       output_step permutation tanh N L b delta I T V g = Ok ((T', V', x), g')
       ∧ shape (Z.to_nat N) (Z.to_nat N) T'
       ∧ (∀ i j, (i < Z.to_nat N)%nat → (j < Z.to_nat N)%nat →
            (entry T' i j ==
             if decide (i ≤ j)%nat then entry T i j + delta
             else entry T i j - delta)%Q)
       ∧ activation permutation tanh (Z.to_nat L) N b T' I V g = Ok (V', g')
       ∧ x = extract tanh N L T' V')
  ∧ (∀ num_outputs g,
       ∃ T0 V0 g0 V outputs g',
         initialise uniform N g = Ok ((T0, V0), g0)
         ∧ hopfield_run uniform permutation tanh num_outputs N L b delta g
           = Ok ((Nat.iter (Z.to_nat num_outputs) (perturb N delta) T0,
                  V, outputs), g')
         ∧ length outputs = Z.to_nat num_outputs).
Proof.
  intros HN. split.
  - intros I T V g HT HI HV.
    destruct (output_step_ok permutation tanh permutation_spec
                N L b delta I T V g) as (V' & g' & Hact & Hstep & _);
      try done.
    eexists _, V', _, g'. split; [exact Hstep|].
    split; [by apply shape_perturb|].
    split; [intros i j Hi Hj; by apply perturb_entry|done].
  - intros num_outputs g.
    destruct (hopfield_run_ok uniform permutation tanh permutation_spec
                num_outputs N L b delta g HN)
      as (T0 & V0 & g0 & V & outputs & g' & Hinit & Hrun & _ & Hlen & _).
    by exists T0, V0, g0, V, outputs, g'.
Qed.

(** C7, amended: after [k] perturbations the sum of the entries with
    row <= column minus the sum of those with row > column has grown by
    exactly [k * delta * N * N]: every one of the [N * N] cells contributes
    [delta], the upper ones by growing and the lower ones by shrinking. *)
Theorem triangle_drift (k : nat) (N : Z) (delta : Q) (T : matrix) :
  (0 <= N) →
  shape (Z.to_nat N) (Z.to_nat N) T →
  (upper_sum (Z.to_nat N) (Nat.iter k (perturb N delta) T)
     - lower_sum (Z.to_nat N) (Nat.iter k (perturb N delta) T)
   == upper_sum (Z.to_nat N) T - lower_sum (Z.to_nat N) T
      + inject_Z (Z.of_nat k) * delta * inject_Z (N * N))%Q.
Proof.
  intros HN HT.
  destruct (triangle_difference_iter k N delta T HT) as [_ H].
  by rewrite Z2Nat.id in H.
Qed.

(** C8: one pass of the activation loop draws [N // 2 + 1] distinct indices
    below [N]; the new state holds [tanh (b * U[i])] at each drawn index [i],
    where [U = T @ V - I] is computed from the old state, and is unchanged at
    every other index. *)
Theorem activate_frame (N : Z) (b : Q) (T : matrix) (I V : vector) (g : G) :
  (1 <= N) →
  shape (Z.to_nat N) (Z.to_nat N) T →
  length I = Z.to_nat N → length V = Z.to_nat N →
  ∃ idx V' g',
    random_choice permutation N (N / 2 + 1) g = Ok (idx, g')
    ∧ NoDup idx
    ∧ Z.of_nat (length idx) = N / 2 + 1
    ∧ Forall (fun i => (i < Z.to_nat N)%nat) idx
    ∧ activate permutation tanh N b T I V g = Ok (V', g')
    ∧ length V' = length V
    ∧ (∀ i, i ∈ idx →
         V' !! i = (fun u => tanh (b * u)%Q) <$> Np.vec_sub (Np.dot T V) I !! i)
    ∧ (∀ i, i ∉ idx → V' !! i = V !! i).
Proof.
  intros HN [HT _] HI HV.
  destruct (activate_ok permutation tanh permutation_spec N b T I V g)
    as (idx & V' & g' & Hidx & Hact & HlenV' & Hin & Hout); try done.
  destruct (random_choice_ok permutation permutation_spec N g HN)
    as (idx1 & g1 & Hidx1 & Hnd & Hlen & Hlt).
  rewrite Hidx in Hidx1. injection Hidx1 as <- <-.
  exists idx, V', g'. repeat split; try done; [|congruence].
  assert (0 <= N / 2) by (apply Z.div_pos; lia). lia.
Qed.

End Claims.

Section Determinism.

Context {G1 G2 : Type}.
Variable uniform1 : Q → Q → G1 → Q * G1.
Variable uniform2 : Q → Q → G2 → Q * G2.
Variable permutation1 : nat → G1 → list nat * G1.
Variable permutation2 : nat → G2 → list nat * G2.
Variable tanh : Q → Q.
Variable R : G1 → G2 → Prop.
Hypothesis uniform_agree :
  ∀ low high g1 g2, R g1 g2 →
    (uniform1 low high g1).1 = (uniform2 low high g2).1
    ∧ R (uniform1 low high g1).2 (uniform2 low high g2).2.
Hypothesis permutation_agree :
  ∀ n g1 g2, R g1 g2 →
    (permutation1 n g1).1 = (permutation2 n g2).1
    ∧ R (permutation1 n g1).2 (permutation2 n g2).2.


End Determinism.

Section Validation.

Context {G : Type}.
Variable uniform : Q → Q → G → Q * G.
Variable permutation : nat → G → list nat * G.
Variable tanh : Q → Q.
Hypothesis permutation_spec : ∀ n g, Permutation (permutation n g).1 (seq 0 n).

(** C9, amended: [hopfield_prng] validates nothing and knows no
    configuration error.  It raises exactly when [N < 0], or when [N = 0]
    with at least one output and one activation pass requested, and the
    exception is then numpy's [ValueError]; in every other case -- among them
    [N = 1], [L < 1] and [num_outputs < 0] -- it returns a batch of
    [max(num_outputs, 0)] samples. *)
Theorem hopfield_prng_no_validation (num_outputs N L : Z) (b delta : Q) (g : G) :
  ((∃ e, hopfield_prng uniform permutation tanh num_outputs N L b delta g
         = Raise e)
   ↔ N < 0 ∨ (N = 0 ∧ 1 <= num_outputs ∧ 1 <= L))
  ∧ (∀ e, hopfield_prng uniform permutation tanh num_outputs N L b delta g
          = Raise e → e = ValueError)
  ∧ (∀ outputs g',
       hopfield_prng uniform permutation tanh num_outputs N L b delta g
         = Ok (outputs, g') →
       length outputs = Z.to_nat num_outputs).
Proof.
  destruct (Z.lt_trichotomy N 0) as [HN|[->|HN]].
  - assert (hopfield_prng uniform permutation tanh num_outputs N L b delta g
            = Raise ValueError) as ->.
    { unfold hopfield_prng, hopfield_run. unfold_monad.
      by rewrite initialise_negative. }
    split; [split; [by left|by exists ValueError]|].
    split; [by intros e [= <-]|done].
  - pose proof (hopfield_prng_zero_neurons uniform permutation tanh
                  num_outputs L b delta g) as H.
    case_decide as Hc.
    + rewrite H. split; [split; [by right|by exists ValueError]|].
      split; [by intros e [= <-]|done].
    + destruct H as (outputs & -> & Hlen).
      split; [split; [by intros [e ?]|intros [?|(_ & ? & ?)]; lia]|].
      split; [done|by intros ?? [= <- <-]].
  - destruct (hopfield_prng_ok uniform permutation tanh permutation_spec
                num_outputs N L b delta g) as (outputs & g' & -> & Hlen & _);
      [lia|].
    split; [split; [by intros [e ?]|lia]|].
    split; [done|by intros ?? [= <- <-]].
Qed.

End Validation.

(** C10: a batch of raw samples in [[0, 1)] -- and also a sample equal to
    [1] -- is serialised without error as the concatenation, in sample
    order, of the 4-byte big-endian encodings of [floor (v * 10^9)], where
    [v * 10^9] is the binary64 product the code computes; reading each 4-byte
    block back as a big-endian unsigned integer returns that integer. *)
Theorem serialize_roundtrip (vs : list Q) :
  Forall closed_unit vs →
  ∃ byte_data,
    serialize (map Fin vs) = Ok byte_data
    ∧ byte_data
      = concat (map (fun v =>
                  Bytes.be_digits 4
                    (Qfloor (Float64.rnd (v * inject_Z (10 ^ 9))))) vs)
    ∧ length byte_data = (4 * length vs)%nat
    ∧ map Bytes.from_bytes_big (Bytes.slices 4 byte_data)
      = map (fun v => Qfloor (Float64.rnd (v * inject_Z (10 ^ 9)))) vs.
Proof.
  intros Hvs. eexists. split; [by apply serialize_ok|]. split; [done|].
  split; [|by apply decode_quantise].
  clear Hvs. induction vs as [|v vs IH]; [done|].
  cbn [map concat]. rewrite length_app, IH, length_be_digits. simpl. lia.
Qed.

(** * Concrete runs *)

Section Runs.
Local Open Scope Q_scope.

(** C5, instances with a negative argument: [-1/4 % 1] is [3/4], and
    [-2^-60 % 1] is [1], because [1 - 2^-60] rounds to [1]. *)
Example frac_negative : Np.mod1 (Fin (- (1 # 4))) = Fin (3 # 4).
Proof. by vm_compute. Qed.

Example frac_tiny_negative : Np.mod1 (Fin (- (1 # 2 ^ 60))) = Fin 1.
Proof. by vm_compute. Qed.

(** C5, one output step on two neurons.  Both indices are drawn; the sum of
    the two [tanh] values is about [0.00257], [x = 1000 * (sum / 2)] is the
    binary64 number [5783094506949277 / 2^52], about [1.2841], and the
    sample is [x - 1]. *)
Example output_step_two_neurons :
  output_step Demo.permutation Demo.tanh 2 1 (1 # 10) (1 # 100)
    [0; 0] Demo.weights2 [1; -1] 42%Z
  = Ok ((perturb 2 (1 # 100) Demo.weights2, [3 # 43; 73 # 1073],
         Fin (1279494879578781 # 4503599627370496)), 1250496027%Z)
  ∧ Float64.rnd
      (1000 * Float64.rnd
         (Np.sum (map Demo.tanh
                    (Np.dot (perturb 2 (1 # 100) Demo.weights2)
                       [3 # 43; 73 # 1073]))
          / Float64.rnd (inject_Z (1 * 2))))
    = 5783094506949277 # 4503599627370496.
Proof. split; by vm_compute. Qed.


(** C8, a pass on three neurons: the indices [0] and [1] are drawn and
    receive [tanh (b * U[i])] for [U = T @ V = [11/12, 17/20, -1/8]]; the
    state at index [2] is kept. *)
Example activate_three_neurons :
  random_choice Demo.permutation 3 (3 / 2 + 1) 42%Z
    = Ok ([0%nat; 1%nat], 1250496027%Z)
  ∧ activate Demo.permutation Demo.tanh 3 (1 # 10) Demo.weights3
      [0; 0; 0] [1; -1; 1 # 2] 42%Z
    = Ok ([11 # 131; 17 # 217; 1 # 2], 1250496027%Z).
Proof. split; by vm_compute. Qed.

(** C7 fails as stated.  With [N = 2] and [delta = 1], one perturbation
    turns [[1/2, -1/4], [1/4, -1/2]] into [[3/2, 3/4], [-3/4, 1/2]]: the upper
    sum minus the lower sum goes from [-1/4 - 1/4 = -1/2] to
    [11/4 + 3/4 = 7/2].  It has grown by [4], not by [k * delta * N = 2]. *)
Lemma triangle_drift_counterexample :
  Forall2 (Forall2 Qeq) (Nat.iter 1 (perturb 2 1) Demo.weights2)
    [[3 # 2; 3 # 4]; [- (3 # 4); 1 # 2]]
  ∧ upper_sum 2 Demo.weights2 - lower_sum 2 Demo.weights2 == - (1 # 2)
  ∧ upper_sum 2 (Nat.iter 1 (perturb 2 1) Demo.weights2)
      - lower_sum 2 (Nat.iter 1 (perturb 2 1) Demo.weights2) == 7 # 2
  ∧ ¬ (upper_sum 2 (Nat.iter 1 (perturb 2 1) Demo.weights2)
         - lower_sum 2 (Nat.iter 1 (perturb 2 1) Demo.weights2)
       == upper_sum 2 Demo.weights2 - lower_sum 2 Demo.weights2
          + inject_Z 1 * 1 * inject_Z 2).
Proof.
  split; [by repeat constructor|]. split; [reflexivity|].
  split; [reflexivity|].
  intros H. vm_compute in H. discriminate.
Qed.

(** C9 fails as stated.  A negative [num_outputs] with the default network
    returns the empty batch; a single neuron ([N = 1]) returns a batch; no
    activation pass ([L = 0]) returns a batch, whose sample is not-a-number
    because the extraction divides by [L * N = 0].  The conditioned generator
    asked for [-1] outputs returns the first seven words of the digest of the
    empty byte string. *)
Lemma invalid_configurations_return_batches :
  (∃ g', hopfield_prng Demo.uniform Demo.permutation Demo.tanh
           (-1) 100 10 (1 # 10) (1 # 100) 42%Z = Ok ([], g'))
  ∧ (∃ x g', hopfield_prng Demo.uniform Demo.permutation Demo.tanh
               1 1 10 (1 # 10) (1 # 100) 42%Z = Ok ([x], g'))
  ∧ (∃ g', hopfield_prng Demo.uniform Demo.permutation Demo.tanh
             1 2 0 (1 # 10) (1 # 100) 42%Z = Ok ([NaN], g'))
  ∧ (∃ g', hopfield_sha_prng Demo.uniform Demo.permutation Demo.tanh (-1) 42%Z
           = Ok (map (fun x => inject_Z x / inject_Z (2 ^ 32))
                   [3820012610; 2566659092; 2600203464; 2574235940;
                    665731556; 1687917388; 2761267483]%Z, g')).
Proof.
  split; [|split; [|split]].
  - eexists. vm_compute. reflexivity.
  - eexists _, _. vm_compute. reflexivity.
  - eexists. vm_compute. reflexivity.
  - eexists. vm_compute. reflexivity.
Qed.

End Runs.

(** * Instances on the concrete generator *)

Section Witnesses.
Local Open Scope Q_scope.

Lemma nine_requested_eight_returned_witness :
  ∃ out g',
    hopfield_sha_prng Demo.uniform Demo.permutation Demo.tanh 9 42%Z
      = Ok (out, g')
    ∧ length out = 8%nat.
Proof.
  exact (nine_requested_eight_returned Demo.uniform Demo.permutation Demo.tanh
           demo_permutation_spec 42%Z).
Defined.

Lemma hopfield_sha_prng_length_witness :
  ∃ out g',
    hopfield_sha_prng Demo.uniform Demo.permutation Demo.tanh 12 42%Z
      = Ok (out, g')
    ∧ Z.of_nat (length out) = 8%Z.
Proof.
  destruct (hopfield_sha_prng_length Demo.uniform Demo.permutation Demo.tanh
              demo_permutation_spec 12 42%Z)
    as (raw & byte_data & out & g' & _ & _ & _ & _ & _ & Hrun & Hlen); [lia|].
  exists out, g'. split; [exact Hrun|]. lia.
Defined.


Lemma hopfield_sha_prng_unit_interval_witness :
  ∃ out g',
    hopfield_sha_prng Demo.uniform Demo.permutation Demo.tanh 5 42%Z
      = Ok (out, g')
    ∧ Forall unit_interval out.
Proof.
  exact (hopfield_sha_prng_unit_interval Demo.uniform Demo.permutation
           Demo.tanh demo_permutation_spec 5 42%Z).
Defined.


Lemma perturbation_once_per_output_witness :
  ∃ T0 V0 g0 V outputs g',
    initialise Demo.uniform 2 42%Z = Ok ((T0, V0), g0)
    ∧ hopfield_run Demo.uniform Demo.permutation Demo.tanh
        3 2 1 (1 # 10) (1 # 100) 42%Z
      = Ok ((Nat.iter 3 (perturb 2 (1 # 100)) T0, V, outputs), g')
    ∧ length outputs = 3%nat.
Proof.
  destruct (perturbation_once_per_output Demo.uniform Demo.permutation
              Demo.tanh demo_permutation_spec 2 1 (1 # 10) (1 # 100))
    as [_ Hrun]; [lia|].
  exact (Hrun 3%Z 42%Z).
Defined.

Lemma triangle_drift_witness :
  upper_sum 2 (Nat.iter 3 (perturb 2 1) Demo.zero2)
    - lower_sum 2 (Nat.iter 3 (perturb 2 1) Demo.zero2)
  == upper_sum 2 Demo.zero2 - lower_sum 2 Demo.zero2
     + inject_Z 3 * 1 * inject_Z (2 * 2).
Proof.
  apply (triangle_drift 3 2 1 Demo.zero2); [lia|].
  split; [reflexivity|]. by repeat constructor.
Defined.

(** Three neurons with non-zero weights: two indices are drawn and the
    third state is kept. *)
Lemma activate_frame_witness :
  ∃ idx V' g',
    random_choice Demo.permutation 3 (3 / 2 + 1) 42%Z = Ok (idx, g')
    ∧ NoDup idx
    ∧ Z.of_nat (length idx) = (3 / 2 + 1)%Z
    ∧ Forall (fun i => (i < Z.to_nat 3)%nat) idx
    ∧ activate Demo.permutation Demo.tanh 3 (1 # 10) Demo.weights3
        [0; 0; 0] [1; -1; 1 # 2] 42%Z
      = Ok (V', g')
    ∧ length V' = length [1; -1; 1 # 2]
    ∧ (∀ i, i ∈ idx →
         V' !! i = (fun u => Demo.tanh ((1 # 10) * u))
                     <$> Np.vec_sub (Np.dot Demo.weights3 [1; -1; 1 # 2])
                           [0; 0; 0] !! i)
    ∧ (∀ i, i ∉ idx → V' !! i = [1; -1; 1 # 2] !! i).
Proof.
  apply (activate_frame Demo.permutation Demo.tanh
           demo_permutation_spec 3 (1 # 10) Demo.weights3
           [0; 0; 0] [1; -1; 1 # 2] 42%Z);
    [lia|split; [reflexivity|by repeat constructor]|reflexivity|reflexivity].
Defined.

Lemma hopfield_prng_no_validation_witness :
  ¬ (∃ e, hopfield_prng Demo.uniform Demo.permutation Demo.tanh
            (-1) 1 0 (1 # 10) (1 # 100) 42%Z = Raise e).
Proof.
  intros H.
  apply (hopfield_prng_no_validation Demo.uniform Demo.permutation Demo.tanh
           demo_permutation_spec (-1) 1 0 (1 # 10) (1 # 100) 42%Z) in H.
  lia.
Defined.

(** The third sample is the binary64 number nearest to [0.3]: the exact
    product with [10^9] is a little below [300000000] and rounds to it. *)
Lemma serialize_roundtrip_witness :
  ∃ byte_data,
    serialize (map Fin [1 # 2; 0; 5404319552844595 # 18014398509481984; 1])
      = Ok byte_data
    ∧ map Bytes.from_bytes_big (Bytes.slices 4 byte_data)
      = [500000000; 0; 300000000; 1000000000]%Z.
Proof.
  destruct (serialize_roundtrip
              [1 # 2; 0; 5404319552844595 # 18014398509481984; 1])
    as (byte_data & Hser & _ & _ & Hdec).
  { repeat constructor; unfold Qle; simpl; lia. }
  exists byte_data. split; [exact Hser|]. rewrite Hdec. by vm_compute.
Defined.

End Witnesses.

(** * Further properties *)

(** ** Binary digits *)

Section BitsFacts.
Import Bytes Bits.

Lemma format_08b_value (b : byte) (acc : Z) :
  fold_left (fun acc d => 2 * acc + Z.b2z d) (format_08b b) acc
  = 256 * acc + Z_of_byte b.
Proof. destruct b; cbn; lia. Qed.

Lemma bits_16_32 (b0 b1 b2 b3 : byte) :
  slice 16 32 (concat (map format_08b [b0; b1; b2; b3]))
  = format_08b b2 ++ format_08b b3.
Proof. reflexivity. Qed.

Lemma int_base2_two_bytes (b2 b3 : byte) :
  int_base2 (format_08b b2 ++ format_08b b3)
  = Ok (256 * Z_of_byte b2 + Z_of_byte b3).
Proof.
  assert (∀ bits, (0 < length bits)%nat →
            int_base2 bits
            = Ok (fold_left (fun acc d => 2 * acc + Z.b2z d) bits 0)) as Hne.
  { intros [|d ds] Hlen; [simpl in Hlen; lia|done]. }
  rewrite Hne.
  - rewrite fold_left_app, !format_08b_value. f_equal; lia.
  - rewrite length_app. unfold format_08b. rewrite !length_map. simpl. lia.
Qed.

Lemma tm_word_closed_unit (float_bytes : list byte) :
  closed_unit (tm_word float_bytes).
Proof.
  unfold closed_unit, tm_word.
  pose proof (Z_of_byte_range (nth 2 float_bytes x00)).
  pose proof (Z_of_byte_range (nth 3 float_bytes x00)).
  unfold Qdiv, Qmult, Qinv, Qle. simpl. lia.
Qed.

End BitsFacts.

(** ** The bit-extraction generator *)

Section TmHnnFacts.

Context {G : Type}.
Variable uniform : Q → Q → G → Q * G.
Variable float32_tobytes : Q → list byte.

(** A single-precision value takes four bytes. *)
Hypothesis float32_size : ∀ x, length (float32_tobytes x) = 4%nat.

Lemma tm_hnn_step_ok g :
  tm_hnn_step uniform float32_tobytes g
  = Ok (tm_word (float32_tobytes (uniform (-10) 10 g).1),
        (uniform (-10) 10 g).2).
Proof.
  unfold tm_hnn_step, random_uniform. unfold_monad.
  destruct (uniform (-10) 10 g) as [state g']. cbn [fst snd].
  pose proof (float32_size state) as Hlen.
  destruct (float32_tobytes state) as [|b0 [|b1 [|b2 [|b3 [|b4 bs]]]]];
    try done.
  by rewrite bits_16_32, int_base2_two_bytes.
Qed.

Lemma tm_hnn_loop_ok n random_numbers g :
  tm_hnn_loop uniform float32_tobytes n random_numbers g
  = Ok (random_numbers
          ++ map (fun state => tm_word (float32_tobytes state))
               (uniform_vec uniform (-10) 10 n g).1,
        (uniform_vec uniform (-10) 10 n g).2).
Proof.
  revert random_numbers g. induction n as [|n IH]; intros random_numbers g.
  - cbn. by rewrite app_nil_r.
  - cbn [tm_hnn_loop uniform_vec]. unfold_monad. rewrite tm_hnn_step_ok.
    destruct (uniform (-10) 10 g) as [state g1]. cbn [fst snd].
    rewrite IH.
    destruct (uniform_vec uniform (-10) 10 n g1) as [states g2].
    cbn [fst snd map]. by rewrite <- app_assoc.
Qed.

(** X8: [tm_hnn_prng] draws [max(num_outputs, 0)] states in turn and turns
    each one into the 16-bit integer made of bytes 2 and 3 of its
    single-precision buffer (byte 2 is the high-order one), divided by
    65535.  Every output therefore lies in [[0, 1]], and no error is
    raised. *)
Theorem tm_hnn_prng_words (num_outputs : Z) (g : G) :
  let states := (uniform_vec uniform (-10) 10 (Z.to_nat num_outputs) g).1 in
  let random_numbers :=
    map (fun state => tm_word (float32_tobytes state)) states in
  tm_hnn_prng uniform float32_tobytes num_outputs g
    = Ok (random_numbers,
          (uniform_vec uniform (-10) 10 (Z.to_nat num_outputs) g).2)
  ∧ length random_numbers = Z.to_nat num_outputs
  ∧ Forall closed_unit random_numbers.
Proof.
  cbn zeta. split; [|split].
  - unfold tm_hnn_prng. by rewrite tm_hnn_loop_ok.
  - by rewrite length_map, length_uniform_vec.
  - apply Forall_map, Forall_forall. intros state _.
    apply tm_word_closed_unit.
Qed.

End TmHnnFacts.

(** ** The two-variable generator *)

Section DbhnnFacts.
Local Open Scope Q_scope.

Context {G : Type}.
Variable uniform : Q → Q → G → Q * G.
Variable sin : Q → Q.

(** The ranges of the collaborators. *)
Hypothesis uniform_range :
  ∀ low high g, low <= high →
    low <= (uniform low high g).1 ∧ (uniform low high g).1 <= high.
Hypothesis sin_range : ∀ x, within_one (sin x).

(** *** Operations that stay in range *)

Lemma fl_within (B q : Q) :
  representable_bound B → - B <= q → q <= B →
  finite_within B (Float64.fl q).
Proof.
  intros (EB & EoB & Hmax) Hlo Hhi.
  destruct (rnd_between (- B) B q EoB EB Hlo Hhi) as [H1 H2].
  exists (Float64.rnd q). split; [|done].
  unfold Float64.fl. cbv zeta.
  assert (Qle_bool (Qabs (Float64.rnd q)) Float64.max_float = true) as ->; [|done].
  apply Qle_bool_iff. apply Qabs_Qle_condition. split; lra.
Qed.

Lemma finite_within_weaken (A B : Q) x :
  A <= B → finite_within A x → finite_within B x.
Proof. intros HAB (q & -> & H1 & H2). exists q. split; [done|]. split; lra. Qed.

Lemma fadd_within (A B C : Q) x y :
  finite_within A x → finite_within B y →
  A + B <= C → representable_bound C →
  finite_within C (Np.fadd x y).
Proof.
  intros (p & -> & Hp1 & Hp2) (q & -> & Hq1 & Hq2) HC HrC. cbn [Np.fadd].
  apply fl_within; [done|lra|lra].
Qed.

Lemma fmul_within (A B C : Q) x y :
  finite_within A x → finite_within B y →
  A * B <= C → representable_bound C →
  finite_within C (Np.fmul x y).
Proof.
  intros (p & -> & Hp1 & Hp2) (q & -> & Hq1 & Hq2) HC HrC. cbn [Np.fmul].
  assert (Qabs (p * q) <= A * B) as Habs.
  { rewrite Qabs_Qmult. apply Qmult_le_compat_nonneg.
    - split; [apply Qabs_nonneg|]. apply Qabs_Qle_condition. by split.
    - split; [apply Qabs_nonneg|]. apply Qabs_Qle_condition. by split. }
  assert (Qabs (p * q) <= C) as HabsC by lra.
  apply Qabs_Qle_condition in HabsC as [H1 H2].
  by apply fl_within.
Qed.

Lemma np_sin_within x : finite_within 100 x → finite_within 1 (np_sin sin x).
Proof.
  intros (q & -> & _). exists (sin q). split; [done|]. apply sin_range.
Qed.

(** *** The state stays finite for the documented decay coefficients *)

Lemma dbhnn_update_within mu x y :
  - (19 # 20) <= mu → mu <= 19 # 20 →
  finite_within 100 x → finite_within 100 y →
  finite_within 100 (dbhnn_update sin mu x y).1
  ∧ finite_within 100 (dbhnn_update sin mu x y).2.
Proof.
  intros Hmu1 Hmu2 Hx Hy. unfold dbhnn_update. cbn [fst snd].
  assert (finite_within (19 # 20) (Fin mu)) as Hmu by (by exists mu).
  assert (finite_within 2 (Fin 2)) as Htwo by (by exists 2).
  assert (finite_within 2 (Fin (-2))) as Hmtwo by (by exists (-2)).
  pose proof (np_sin_within x Hx) as Hsx. pose proof (np_sin_within y Hy) as Hsy.
  assert (representable_bound 95) as R95 by (by vm_compute).
  assert (representable_bound 2) as R2 by (by vm_compute).
  assert (representable_bound 97) as R97 by (by vm_compute).
  assert (representable_bound 100) as R100 by (by vm_compute).
  split.
  - apply (fadd_within 97 2 100); [|by apply (fmul_within 2 1 2)|done|done].
    apply (fadd_within 95 2 97); [|by apply (fmul_within 2 1 2)|done|done].
    by apply (fmul_within (19 # 20) 100 95).
  - apply (fadd_within 97 2 100); [|by apply (fmul_within 2 1 2)|done|done].
    apply (fadd_within 95 2 97); [|by apply (fmul_within 2 1 2)|done|done].
    by apply (fmul_within (19 # 20) 100 95).
Qed.

(** *** The output transformation *)

Lemma eighth_bit_fraction_closed_unit o :
  eighth_bit_fraction o → closed_unit o.
Proof.
  intros (k & Hk & ->). apply rnd_closed_unit.
  assert (0 <= inject_Z k ∧ inject_Z k <= 255) as [H0 H1].
  { change 0 with (inject_Z 0). change 255 with (inject_Z 255).
    rewrite <- !Zle_Qle. lia. }
  split.
  - apply Qle_shift_div_l; [done|]. lra.
  - apply Qle_shift_div_r; [done|]. lra.
Qed.

Lemma dbhnn_output_ok K x y :
  (Z.abs K <= 2 ^ 53)%Z →
  finite_within 100 x → finite_within 100 y →
  ∃ o, dbhnn_output K x y = Ok o ∧ eighth_bit_fraction o.
Proof.
  intros HK Hx Hy. unfold dbhnn_output.
  assert (representable_bound 200) as R200 by (by vm_compute).
  assert (representable_bound (inject_Z (2 ^ 53))) as Rbig by (by vm_compute).
  destruct (fadd_within 100 100 200 x y Hx Hy) as (s & -> & _); [done|done|].
  cbn [Np.mod1].
  assert (finite_within 1 (Fin (Np.frac s))) as HXm.
  { exists (Np.frac s). split; [done|].
    destruct (frac_closed_unit s). split; lra. }
  assert (finite_within (inject_Z (2 ^ 53)) (Float64.fl (inject_Z K))) as HKf.
  { apply fl_within; [done| |].
    - rewrite <- inject_Z_opp, <- Zle_Qle. lia.
    - rewrite <- Zle_Qle. lia. }
  destruct (fmul_within 1 (inject_Z (2 ^ 53)) (inject_Z (2 ^ 53)) _ _ HXm HKf)
    as (r & -> & _); [lra|done|].
  cbn [Np.to_int]. unfold_monad. eexists. split; [reflexivity|].
  eexists. split; [|reflexivity].
  pose proof (Z.mod_pos_bound (Qnum r ÷ Z.pos (Qden r)) 256). lia.
Qed.

Lemma dbhnn_loop_outputs n mu K x y outputs :
  - (19 # 20) <= mu → mu <= 19 # 20 → (Z.abs K <= 2 ^ 53)%Z →
  finite_within 100 x → finite_within 100 y →
  ∃ new,
    dbhnn_loop sin n mu K x y outputs = Ok (outputs ++ new)
    ∧ length new = n
    ∧ Forall eighth_bit_fraction new.
Proof.
  intros Hmu1 Hmu2 HK. revert x y outputs.
  induction n as [|n IH]; intros x y outputs Hx Hy.
  - exists []. by rewrite app_nil_r.
  - cbn [dbhnn_loop].
    destruct (dbhnn_update_within mu x y Hmu1 Hmu2 Hx Hy) as [Hx1 Hy1].
    destruct (dbhnn_update sin mu x y) as [x1 y1]. cbn [fst snd] in Hx1, Hy1.
    destruct (dbhnn_output_ok K x1 y1 HK Hx1 Hy1) as (o & -> & Ho).
    unfold_monad.
    destruct (IH x1 y1 (outputs ++ [o]) Hx1 Hy1) as (new & -> & Hlen & Hnew).
    exists (o :: new).
    rewrite <- app_assoc. split; [done|]. split; [simpl; by f_equal|].
    by constructor.
Qed.

(** X9: for a decay [mu] of magnitude at most [0.95] -- the documented
    coefficients are [0.3], [0.6], [0.8] and [0.95] -- and a scaling
    constant [K] of magnitude at most [2^53], [dbhnn_prng] never raises: the
    two variables stay finite (within [[-100, 100]]), so [(x + y) % 1] is
    never not-a-number.  It returns [max(num_outputs, 0)] values, each of
    them the binary64 number [k / 255.0] for an integer [0 <= k <= 255], and
    so in [[0, 1]]. *)
Theorem dbhnn_prng_outputs (num_outputs : Z) (mu : Q) (K : Z) (g : G) :
  - (19 # 20) <= mu → mu <= 19 # 20 → (Z.abs K <= 2 ^ 53)%Z →
  ∃ outputs g',
    dbhnn_prng uniform sin num_outputs mu K g = Ok (outputs, g')
    ∧ length outputs = Z.to_nat num_outputs
    ∧ Forall eighth_bit_fraction outputs
    ∧ Forall closed_unit outputs.
Proof.
  intros Hmu1 Hmu2 HK.
  unfold dbhnn_prng, random_uniform. unfold_monad.
  assert (-1 <= 1) as Hle by done.
  pose proof (uniform_range (-1) 1 g Hle) as [Hx1 Hx2].
  destruct (uniform (-1) 1 g) as [x g1]. cbn [fst] in Hx1, Hx2.
  pose proof (uniform_range (-1) 1 g1 Hle) as [Hy1 Hy2].
  destruct (uniform (-1) 1 g1) as [y g2]. cbn [fst] in Hy1, Hy2.
  assert (finite_within 100 (Fin x)) as Hx by (exists x; split; [done|split; lra]).
  assert (finite_within 100 (Fin y)) as Hy by (exists y; split; [done|split; lra]).
  destruct (dbhnn_loop_outputs (Z.to_nat num_outputs) mu K (Fin x) (Fin y) []
              Hmu1 Hmu2 HK Hx Hy) as (new & -> & Hlen & Hnew).
  exists new, g2. split; [done|]. split; [done|]. split; [done|].
  eapply Forall_impl; [exact Hnew|]. apply eighth_bit_fraction_closed_unit.
Qed.

End DbhnnFacts.

(** ** More on the raw generator *)

Section RawFacts.

Context {G : Type}.
Variable uniform : Q → Q → G → Q * G.
Variable permutation : nat → G → list nat * G.
Variable tanh : Q → Q.

Lemma shape_iter_perturb k N delta T :
  shape (Z.to_nat N) (Z.to_nat N) T →
  shape (Z.to_nat N) (Z.to_nat N) (Nat.iter k (perturb N delta) T).
Proof.
  intros HT. induction k as [|k IH]; [done|].
  cbn [Nat.iter nat_rect]. by apply shape_perturb.
Qed.

(** *** The final weights *)

Lemma entry_fill_diagonal n (D : matrix) i j :
  shape n n D → (i < n)%nat → (j < n)%nat →
  entry (Np.fill_diagonal D (map (fun x => x * 2)%Q (Np.diag D))) i j
  = if decide (i = j) then (entry D i j * 2)%Q else entry D i j.
Proof.
  intros HD Hi Hj.
  destruct (shape_lookup n n D i j HD Hi Hj) as (row & t & Hrow & Ht).
  destruct (shape_lookup n n D i i HD Hi Hi) as (row' & d & Hrow' & Hd).
  rewrite Hrow in Hrow'. injection Hrow' as <-.
  rewrite (entry_Some D i j row t) by done.
  assert (map (fun x => x * 2)%Q (Np.diag D) !! i = Some (d * 2)%Q) as Hdiag.
  { unfold Np.diag. rewrite lookup_map, list_lookup_imap, Hrow. simpl.
    by rewrite nth_lookup, Hd. }
  apply (entry_Some _ i j (<[i:=(d * 2)%Q]> row)).
  - unfold Np.fill_diagonal. rewrite list_lookup_imap, Hrow. simpl.
    by rewrite Hdiag.
  - case_decide as Hij.
    + subst j. rewrite Hd in Ht. injection Ht as <-.
      apply list_lookup_insert_eq. by eapply lookup_lt_Some.
    + by rewrite list_lookup_insert_ne.
Qed.

Lemma iter_perturb_entry k N delta T i j :
  shape (Z.to_nat N) (Z.to_nat N) T →
  (i < Z.to_nat N)%nat → (j < Z.to_nat N)%nat →
  (entry (Nat.iter k (perturb N delta) T) i j ==
   if decide (i ≤ j)%nat
   then entry T i j + inject_Z (Z.of_nat k) * delta
   else entry T i j - inject_Z (Z.of_nat k) * delta)%Q.
Proof.
  intros HT Hi Hj. induction k as [|k IH].
  - cbn [Nat.iter nat_rect]. case_decide; simpl; ring.
  - cbn [Nat.iter nat_rect].
    pose proof (perturb_entry N delta (Nat.iter k (perturb N delta) T) i j
                  (shape_iter_perturb k N delta T HT) Hi Hj) as Hstep.
    rewrite Nat2Z.inj_succ. unfold Z.succ. rewrite inject_Z_plus.
    case_decide as Hij; rewrite Hstep, IH; ring.
Qed.

Lemma initialise_weights N g :
  (0 <= N) →
  ∃ V0 g0,
    initialise uniform N g
    = Ok ((Np.fill_diagonal
             (uniform_mat uniform (-1) 1 (Z.to_nat N) (Z.to_nat N) g).1
             (map (fun x => x * 2)%Q
                (Np.diag (uniform_mat uniform (-1) 1
                            (Z.to_nat N) (Z.to_nat N) g).1)), V0), g0).
Proof.
  intros HN. unfold initialise, random_uniform_matrix, random_uniform_vector.
  unfold_monad. assert ((N <? 0) = false) as -> by lia. cbn [orb].
  destruct (uniform_mat _ _ _ _ _ g) as [D g1]. cbn [fst].
  destruct (uniform_vec _ _ _ _ g1) as [V0 g0]. by exists V0, g0.
Qed.

Hypothesis permutation_spec : ∀ n g, Permutation (permutation n g).1 (seq 0 n).

(** X3: the weights after a run, in closed form.  With [D] the matrix
    drawn at initialisation, entry [(i, j)] of the final matrix is [D[i][j]],
    doubled on the diagonal, plus [num_outputs * delta] if [i <= j] and minus
    [num_outputs * delta] if [i > j]: the activation loop never writes to the
    weights. *)
Theorem final_weights (num_outputs N L : Z) (b delta : Q) (g : G) :
  (1 <= N) → (0 <= num_outputs) →
  let D := (uniform_mat uniform (-1) 1 (Z.to_nat N) (Z.to_nat N) g).1 in
  ∃ T V outputs g',
    hopfield_run uniform permutation tanh num_outputs N L b delta g
      = Ok ((T, V, outputs), g')
    ∧ ∀ i j, (i < Z.to_nat N)%nat → (j < Z.to_nat N)%nat →
        (entry T i j ==
         (if decide (i = j) then entry D i j * 2 else entry D i j)
         + (if decide (i ≤ j)%nat then inject_Z num_outputs * delta
            else - (inject_Z num_outputs * delta)))%Q.
Proof.
  intros HN Hn D.
  destruct (hopfield_run_ok uniform permutation tanh permutation_spec
              num_outputs N L b delta g HN)
    as (T0 & V0 & g0 & V & outputs & g' & Hinit & Hrun & HT0 & _ & _).
  destruct (initialise_weights N g) as (V0' & g0' & Hinit'); [lia|].
  rewrite Hinit in Hinit'. injection Hinit' as HT0eq _ _.
  eexists _, V, outputs, g'. split; [exact Hrun|].
  intros i j Hi Hj.
  rewrite (iter_perturb_entry _ N delta T0 i j HT0 Hi Hj), HT0eq.
  rewrite (entry_fill_diagonal (Z.to_nat N)); [|apply shape_uniform_mat|done..].
  rewrite Z2Nat.id by done. fold D.
  repeat case_decide; ring.
Qed.

(** X1: asking for one more output keeps the outputs already obtained.
    From the same generator state, [hopfield_prng] with [num_outputs + 1]
    returns the list it returns with [num_outputs], followed by one more
    sample. *)
Theorem hopfield_prng_extends (num_outputs N L : Z) (b delta : Q) (g : G) :
  (1 <= N) → (0 <= num_outputs) →
  ∃ outputs x g1 g2,
    hopfield_prng uniform permutation tanh num_outputs N L b delta g
      = Ok (outputs, g1)
    ∧ hopfield_prng uniform permutation tanh (num_outputs + 1) N L b delta g
      = Ok (outputs ++ [x], g2).
Proof.
  intros HN Hn.
  destruct (initialise_ok uniform N g) as (T0 & V0 & g0 & Hinit & HT0 & HV0);
    [lia|].
  destruct (output_loop_ok permutation tanh permutation_spec
              (Z.to_nat num_outputs) N L b delta
              (Np.zeros (Z.to_nat N)) T0 V0 [] g0)
    as (V & outputs & g1 & Hloop & HV & _ & _); try done.
  { apply length_replicate. }
  destruct (output_step_ok permutation tanh permutation_spec N L b delta
              (Np.zeros (Z.to_nat N))
              (Nat.iter (Z.to_nat num_outputs) (perturb N delta) T0) V g1)
    as (V' & g2 & _ & Hstep & _); try done.
  { by apply shape_iter_perturb. }
  { apply length_replicate. }
  eexists outputs, _, g1, g2. split.
  - unfold hopfield_prng, hopfield_run. unfold_monad.
    by rewrite Hinit, Hloop.
  - unfold hopfield_prng, hopfield_run. unfold_monad. rewrite Hinit.
    replace (Z.to_nat (num_outputs + 1)) with (S (Z.to_nat num_outputs))
      by lia.
    rewrite output_loop_snoc, Hloop, Hstep. done.
Qed.

End RawFacts.

(** ** The neuron states stay bounded *)

Section BoundedState.

Context {G : Type}.
Variable uniform : Q → Q → G → Q * G.
Variable permutation : nat → G → list nat * G.
Variable tanh : Q → Q.


(** The ranges of the collaborators. *)
Hypothesis uniform_range :
  ∀ low high g, (low <= high)%Q →
    (low <= (uniform low high g).1 ∧ (uniform low high g).1 <= high)%Q.
Hypothesis tanh_range : ∀ x, within_one (tanh x).





Hypothesis permutation_spec : ∀ n g, Permutation (permutation n g).1 (seq 0 n).


End BoundedState.

(** ** The sum of all the weights *)

Section TotalSum.
Local Open Scope Q_scope.

Lemma sum_map_plus (f g : nat → Q) (l : list nat) :
  Np.sum (map (fun i => f i + g i) l) == Np.sum (map f l) + Np.sum (map g l).
Proof. induction l as [|i l IH]; simpl; [ring|]. rewrite IH. ring. Qed.

Lemma sum_over_const n c : sum_over n (fun _ => c) == inject_Z (Z.of_nat n) * c.
Proof.
  unfold sum_over.
  rewrite (sum_map_ext _ (fun i => (fun _ => 0) i + c)) by (intros; ring).
  rewrite sum_map_plus_const, length_seq.
  assert (Np.sum (map (fun _ : nat => 0) (seq 0 n)) == 0) as ->; [|ring].
  induction (seq 0 n) as [|i l IH]; simpl; [reflexivity|]. rewrite IH. ring.
Qed.

Lemma sum_over_S n f : sum_over (S n) f == sum_over n f + f n.
Proof.
  unfold sum_over. rewrite seq_S, map_app. simpl.
  induction (map f (seq 0 n)) as [|x l IH]; simpl; [ring|]. rewrite IH. ring.
Qed.

(** There are [n] more cells on or above the diagonal than below it. *)
Lemma signed_cells n delta :
  sum_over n (fun i => sum_over n (fun j =>
    if decide (i ≤ j)%nat then delta else - delta))
  == inject_Z (Z.of_nat n) * delta.
Proof.
  induction n as [|n IH]; [reflexivity|].
  rewrite sum_over_S.
  rewrite (sum_over_ext n _ (fun i =>
    sum_over n (fun j => if decide (i ≤ j)%nat then delta else - delta)
    + delta)).
  2:{ intros i Hi. rewrite sum_over_S. rewrite decide_True by lia.
      reflexivity. }
  unfold sum_over at 1. rewrite sum_map_plus_const, length_seq.
  fold (sum_over n (fun i => sum_over n (fun j =>
    if decide (i ≤ j)%nat then delta else - delta))).
  rewrite IH, sum_over_S, decide_True by lia.
  rewrite (sum_over_ext n _ (fun _ => - delta)).
  2:{ intros j Hj. by rewrite decide_False by lia. }
  rewrite sum_over_const, Nat2Z.inj_succ. unfold Z.succ.
  rewrite inject_Z_plus. ring.
Qed.

Lemma total_sum_perturb N delta T :
  shape (Z.to_nat N) (Z.to_nat N) T →
  total_sum (Z.to_nat N) (perturb N delta T)
  == total_sum (Z.to_nat N) T + inject_Z (Z.of_nat (Z.to_nat N)) * delta.
Proof.
  intros HT. set (n := Z.to_nat N) in *. unfold total_sum.
  rewrite (sum_over_ext n _ (fun i =>
    sum_over n (entry T i)
    + sum_over n (fun j => if decide (i ≤ j)%nat then delta else - delta))).
  - unfold sum_over at 1. rewrite sum_map_plus.
    fold (sum_over n (fun i => sum_over n (entry T i))).
    fold (sum_over n (fun i => sum_over n (fun j =>
      if decide (i ≤ j)%nat then delta else - delta))).
    by rewrite signed_cells.
  - intros i Hi. unfold sum_over at 2 3. rewrite <- sum_map_plus.
    apply sum_over_ext. intros j Hj.
    rewrite (perturb_entry N delta T i j HT Hi Hj).
    case_decide; ring.
Qed.

(** X4: each perturbation raises the sum of all the weights by
    [delta * N], the surplus of cells on or above the diagonal; after [k]
    perturbations the sum has grown by [k * delta * N] (exact arithmetic). *)
Theorem total_weight_drift (k : nat) (N : Z) (delta : Q) (T : matrix) :
  (0 <= N)%Z →
  shape (Z.to_nat N) (Z.to_nat N) T →
  total_sum (Z.to_nat N) (Nat.iter k (perturb N delta) T)
  == total_sum (Z.to_nat N) T + inject_Z (Z.of_nat k) * delta * inject_Z N.
Proof.
  intros HN HT. induction k as [|k IH].
  - cbn [Nat.iter nat_rect]. simpl. ring.
  - assert (shape (Z.to_nat N) (Z.to_nat N) (Nat.iter k (perturb N delta) T))
      as Hk by (clear IH; induction k; [done|by apply shape_perturb]).
    change (Nat.iter (S k) (perturb N delta) T)
      with (perturb N delta (Nat.iter k (perturb N delta) T)).
    rewrite (total_sum_perturb N delta _ Hk), IH.
    rewrite Z2Nat.id, Nat2Z.inj_succ by done. unfold Z.succ.
    rewrite inject_Z_plus. ring.
Qed.

End TotalSum.

(** ** What the serialiser accepts *)

Section SerializerDomain.
Local Open Scope Q_scope.

Lemma trunc_range q :
  (0 <= trunc q < 2 ^ 32)%Z ↔ -1 < q ∧ q < inject_Z (2 ^ 32).
Proof.
  destruct (Qlt_le_dec q 0) as [Hneg|Hpos].
  - rewrite (trunc_neg q Hneg).
    assert (0 <= - q) as Hopp by lra.
    pose proof (Qfloor_resp_le 0 (- q) Hopp) as Hfl.
    change (Qfloor 0) with 0%Z in Hfl.
    pose proof (Qfloor_le (- q)) as Hle.
    pose proof (Qlt_floor (- q)) as Hlt.
    rewrite inject_Z_plus in Hlt. change (inject_Z 1) with 1 in Hlt.
    assert (0 < inject_Z (2 ^ 32)) as Hbig by reflexivity.
    split.
    + intros [H0 _]. assert (Qfloor (- q) = 0%Z) as Hz by lia.
      rewrite Hz in Hlt. change (inject_Z 0) with 0 in Hlt. split; lra.
    + intros [H1 _]. assert (Qfloor (- q) < 1)%Z as Hone.
      { rewrite Zlt_Qlt. change (inject_Z 1) with 1. lra. }
      change (2 ^ 32)%Z with 4294967296%Z. lia.
  - rewrite (trunc_nonneg q Hpos).
    pose proof (Qfloor_resp_le 0 q Hpos) as Hfl.
    change (Qfloor 0) with 0%Z in Hfl.
    pose proof (Qfloor_le q) as Hle.
    pose proof (Qlt_floor q) as Hlt.
    rewrite inject_Z_plus in Hlt. change (inject_Z 1) with 1 in Hlt.
    split.
    + intros [_ H1]. split; [lra|].
      assert (Qfloor q + 1 <= 2 ^ 32)%Z as Hs by lia.
      rewrite Zle_Qle, inject_Z_plus in Hs. change (inject_Z 1) with 1 in Hs.
      lra.
    + intros [_ H1]. split; [done|]. rewrite Zlt_Qlt. lra.
Qed.

Lemma to_bytes_ok_iff x :
  (∃ bs, to_bytes 4 x = Ok bs) ↔ (0 <= x < 2 ^ 32)%Z.
Proof.
  unfold to_bytes. change (256 ^ Z.of_nat 4)%Z with (2 ^ 32)%Z.
  destruct (x <? 0)%Z eqn:E1; destruct (2 ^ 32 <=? x)%Z eqn:E2; cbn [orb];
    (split; [intros [bs Hbs]; try done; lia|intros Hx; try lia; by eexists]).
Qed.

Lemma serialize_sample_iff (val : npfloat) :
  (∃ bs, (x ← Np.to_int (Np.mul val (Fin (inject_Z (10 ^ 9))));
          to_bytes 4 x) = Ok bs)
  ↔ serialisable val.
Proof.
  unfold serialisable. destruct val as [q|s|].
  - cbn [Np.mul Np.to_int]. unfold_monad.
    change (Z.quot (Qnum (Float64.rnd (q * inject_Z (10 ^ 9))))
              (Zpos (Qden (Float64.rnd (q * inject_Z (10 ^ 9))))))
      with (trunc (Float64.rnd (q * inject_Z (10 ^ 9)))).
    rewrite to_bytes_ok_iff, trunc_range. split.
    + intros H. by exists q.
    + by intros (q' & [= <-] & H).
  - split; [by intros [bs Hbs]|by intros (q & Hq & _)].
  - split; [by intros [bs Hbs]|by intros (q & Hq & _)].
Qed.

(** X7: the serialisation on line 125 succeeds exactly when every raw
    sample [v] is finite with [-1 < v * 10^9 < 2^32], where [v * 10^9] is
    the binary64 product the code computes; it then writes four bytes per
    sample.  It does not require [v] to be in [[0, 1)]: a value
    in [(-1e-9, 0)] is written as zero because [int] truncates toward zero,
    and values up to about [4.29] are written as they are; a not-a-number
    or an infinity, a value of [-1e-9] or less and a value of [2^32 / 10^9]
    or more make it raise. *)
Theorem serialize_succeeds_iff (raw_sequence : list npfloat) :
  ((∃ byte_data, serialize raw_sequence = Ok byte_data)
   ↔ Forall serialisable raw_sequence)
  ∧ (∀ byte_data, serialize raw_sequence = Ok byte_data →
       length byte_data = (4 * length raw_sequence)%nat).
Proof.
  unfold serialize.
  set (f := fun val : npfloat =>
              x ← Np.to_int (Np.mul val (Fin (inject_Z (10 ^ 9))));
              to_bytes 4 x).
  assert (∀ val bs, f val = Ok bs → length bs = 4%nat) as Hfour.
  { intros val bs. unfold f. unfold_monad.
    destruct (Np.to_int _) as [x|e]; [|done]. unfold to_bytes.
    destruct (_ || _); [done|]. by intros [= <-]. }
  induction raw_sequence as [|val raw IH].
  - split; [split; [constructor|by eexists]|].
    by intros bd [= <-].
  - rewrite mapM_result_cons.
    pose proof (serialize_sample_iff val) as Hval. fold f in Hval.
    destruct IH as [IH1 IH2].
    unfold mbind, mret, result_bind, result_ret in IH1, IH2 |- *.
    destruct (f val) as [bs|e] eqn:Hf.
    + destruct (mapM f raw) as [chunks|e] eqn:Hrest; rewrite ?Hrest in IH1, IH2.
      * split.
        -- split; [|by eexists]. intros _. constructor.
           ++ apply Hval. by eexists.
           ++ apply IH1. by eexists.
        -- intros bd [= <-]. cbn [concat length].
           rewrite length_app, (Hfour val bs Hf), (IH2 (concat chunks)) by done.
           lia.
      * split; [|done]. split; [by intros [bd Hbd]|].
        intros Hall. apply Forall_cons in Hall as [_ Hall].
        apply IH1 in Hall as [bd Hbd]. done.
    + split; [|done]. split; [by intros [bd Hbd]|].
      intros Hall. apply Forall_cons in Hall as [Hv _].
      apply Hval in Hv as [bs Hbs]. change (f val = Ok bs) in Hbs. congruence.
Qed.

End SerializerDomain.

(** ** Requests the conditioned generator does not serve *)

Section NegativeRequest.

Context {G : Type}.
Variable uniform : Q → Q → G → Q * G.
Variable permutation : nat → G → list nat * G.
Variable tanh : Q → Q.
Hypothesis permutation_spec : ∀ n g, Permutation (permutation n g).1 (seq 0 n).

Lemma normalise_empty_digest :
  normalise (SHA256.sha256 []) = empty_digest_words.
Proof. vm_compute. reflexivity. Qed.

(** X6: a negative [num_outputs] makes [hopfield_sha_prng] return numbers
    that do not depend on the generator at all.  No raw sample is produced,
    the empty byte string is hashed, and the slice [[:num_outputs]] keeps
    all but the last [-num_outputs] of the eight words of that fixed digest:
    seven numbers for [-1], none from [-8] on. *)
Theorem negative_request_is_constant (num_outputs : Z) (g : G) :
  (num_outputs < 0) →
  ∃ g',
    hopfield_sha_prng uniform permutation tanh num_outputs g
      = Ok (take (Z.to_nat (8 + num_outputs)) empty_digest_words, g').
Proof.
  intros Hn.
  destruct (hopfield_sha_prng_ok uniform permutation tanh permutation_spec
              num_outputs g) as (vs & g' & _ & Hlen & _ & Hsha).
  assert (vs = []) as -> by (apply length_zero_iff_nil; lia).
  exists g'. rewrite Hsha. unfold byte_data_of. cbn [map concat].
  rewrite normalise_empty_digest. unfold slice_to.
  by assert ((num_outputs <? 0) = true) as -> by lia.
Qed.

End NegativeRequest.

(** ** The last cell of the notebook *)

Section NotebookCell.

Context {G : Type}.
Variable uniform : Q → Q → G → Q * G.
Variable permutation : nat → G → list nat * G.
Variable tanh : Q → Q.
Variable sin : Q → Q.
Variable float32_tobytes : Q → list byte.
Hypothesis permutation_spec : ∀ n g, Permutation (permutation n g).1 (seq 0 n).
Hypothesis float32_size : ∀ x, length (float32_tobytes x) = 4%nat.
Hypothesis uniform_range :
  ∀ low high g, (low <= high)%Q →
    (low <= (uniform low high g).1 ∧ (uniform low high g).1 <= high)%Q.
Hypothesis sin_range : ∀ x, within_one (sin x).

Lemma singleton_of_length {A} (l : list A) :
  length l = 1%nat → ∃ x, l = [x].
Proof. destruct l as [|x [|y l]]; try done. by exists x. Qed.

(** X11: the last cell runs the four generators one after the other on the
    one global generator state, and none of them raises: it obtains four
    lists of one number each, a raw sample in [[0, 1]], a bit-extraction
    output in [[0, 1]], an 8-bit value over 255 and a conditioned output in
    [[0, 1)]. *)
Theorem notebook_cell_runs (g : G) :
  ∃ q t d s g',
    notebook_cell uniform permutation tanh sin float32_tobytes g
      = Ok (([Fin q], [t], [d], [s]), g')
    ∧ closed_unit q
    ∧ closed_unit t
    ∧ eighth_bit_fraction d
    ∧ unit_interval s.
Proof.
  unfold notebook_cell. unfold_monad.
  destruct (hopfield_prng_ok uniform permutation tanh permutation_spec
              1 100 10 (1 # 10) (1 # 100) g)
    as (raw & g1 & -> & Hlen1 & Hraw); [lia|].
  destruct (singleton_of_length raw Hlen1) as [r ->].
  apply Forall_cons in Hraw as [Hr _]. unfold raw_sample_ok in Hr.
  rewrite decide_False in Hr by done. destruct Hr as (q & -> & Hq).
  unfold tm_hnn_prng.
  rewrite (tm_hnn_loop_ok uniform float32_tobytes float32_size).
  destruct (uniform_vec uniform (-10) 10 (Z.to_nat 1) g1) as [states g2] eqn:Hst.
  pose proof (length_uniform_vec uniform (-10) 10 (Z.to_nat 1) g1) as Hlen2.
  rewrite Hst in Hlen2. cbn [fst snd app] in Hlen2 |- *.
  destruct (singleton_of_length states Hlen2) as [state ->]. cbn [map].
  pose proof (tm_word_closed_unit (float32_tobytes state)) as Ht01.
  unfold dbhnn_prng, random_uniform. unfold_monad.
  assert (-1 <= 1)%Q as Hle by done.
  pose proof (uniform_range (-1) 1 g2 Hle) as [Hx1 Hx2].
  destruct (uniform (-1) 1 g2) as [x0 g2']. cbn [fst] in Hx1, Hx2.
  pose proof (uniform_range (-1) 1 g2' Hle) as [Hy1 Hy2].
  destruct (uniform (-1) 1 g2') as [y0 g3]. cbn [fst] in Hy1, Hy2.
  destruct (dbhnn_loop_outputs sin sin_range (Z.to_nat 1) (95 # 100) 1000
              (Fin x0) (Fin y0) [])
    as (ds & -> & Hlen3 & Hds);
    [done|done|done|exists x0; split; [done|split; lra]
    |exists y0; split; [done|split; lra]|].
  destruct (singleton_of_length ds Hlen3) as [d ->]. cbn [app].
  apply Forall_cons in Hds as [Hd _].
  destruct (hopfield_sha_prng_ok uniform permutation tanh permutation_spec
              1 g3) as (vs & g4 & _ & _ & _ & ->).
  pose proof (length_slice_to 1
    (normalise (SHA256.sha256 (byte_data_of vs)))) as Hlen4.
  rewrite length_normalise_sha256 in Hlen4.
  destruct (singleton_of_length
              (slice_to 1 (normalise (SHA256.sha256 (byte_data_of vs)))))
    as [s Hs]; [lia|].
  pose proof (normalise_unit_interval (SHA256.sha256 (byte_data_of vs)))
    as Hrange4.
  assert (Forall unit_interval
            (slice_to 1 (normalise (SHA256.sha256 (byte_data_of vs)))))
    as Hs01 by (by apply Forall_take).
  rewrite Hs in Hs01 |- *. apply Forall_cons in Hs01 as [Hs01 _].
  by eexists q, _, d, s, g4.
Qed.

End NotebookCell.

(** ** Runs without activation *)

Section NoActivation.

Context {G : Type}.
Variable uniform : Q → Q → G → Q * G.
Variable permutation : nat → G → list nat * G.
Variable tanh : Q → Q.

(** X5: with [L <= 0] the activation loop is empty.  For every [N >= 0]
    the run returns [max(num_outputs, 0)] samples without raising, the
    neuron states are still the initial ones, and the generator is left in
    the state it had after initialisation: no index is ever drawn. *)
Theorem no_activation_pass (num_outputs N L : Z) (b delta : Q) (g : G) :
  (0 <= N) → (L <= 0) →
  ∃ T0 V0 g0 T outputs,
    initialise uniform N g = Ok ((T0, V0), g0)
    ∧ hopfield_run uniform permutation tanh num_outputs N L b delta g
      = Ok ((T, V0, outputs), g0)
    ∧ length outputs = Z.to_nat num_outputs.
Proof.
  intros HN HL.
  destruct (initialise_ok uniform N g HN) as (T0 & V0 & g0 & Hinit & _ & _).
  destruct (output_loop_idle permutation tanh (Z.to_nat num_outputs) N L
              b delta (Np.zeros (Z.to_nat N)) T0 V0 [] g0 HL)
    as (T & samples & Hloop & Hlen).
  exists T0, V0, g0, T, samples. split; [done|]. split; [|done].
  unfold hopfield_run. unfold_monad. by rewrite Hinit, Hloop.
Qed.

End NoActivation.

(** ** The concrete collaborators meet their contracts *)

Section DemoContracts.
Local Open Scope Q_scope.

Lemma demo_float32_size x : length (Demo.float32_tobytes x) = 4%nat.
Proof. unfold Demo.float32_tobytes. by rewrite length_rev, length_be_digits. Qed.

Lemma demo_uniform_range low high g :
  low <= high →
  low <= (Demo.uniform low high g).1 ∧ (Demo.uniform low high g).1 <= high.
Proof.
  intros Hle. unfold Demo.uniform. cbn [fst]. rewrite Qred_correct.
  set (u := Demo.next g # 2 ^ 31).
  assert (0 <= u ∧ u <= 1) as [Hu0 Hu1].
  { unfold u, Demo.next, Qle. cbn [Qnum Qden].
    change (2 ^ 31)%positive with 2147483648%positive.
    change (2 ^ 31)%Z with 2147483648%Z.
    pose proof (Z.mod_pos_bound (1103515245 * g + 12345) 2147483648). lia. }
  split; nra.
Qed.


Lemma demo_sin_range x : within_one (Demo.sin x).
Proof.
  unfold within_one, Demo.sin. rewrite Qred_correct.
  assert (0 < 1 + x * x) as Hpos by nra.
  split.
  - apply Qle_shift_div_l; [done|]. nra.
  - apply Qle_shift_div_r; [done|]. nra.
Qed.

End DemoContracts.

(** ** Instances of the further properties *)

Section MoreWitnesses.
Local Open Scope Q_scope.

Lemma hopfield_prng_extends_witness :
  ∃ outputs x g1 g2,
    hopfield_prng Demo.uniform Demo.permutation Demo.tanh
      3 2 1 (1 # 10) (1 # 100) 42%Z = Ok (outputs, g1)
    ∧ hopfield_prng Demo.uniform Demo.permutation Demo.tanh
        (3 + 1) 2 1 (1 # 10) (1 # 100) 42%Z = Ok (outputs ++ [x], g2).
Proof.
  apply (hopfield_prng_extends Demo.uniform Demo.permutation Demo.tanh
           demo_permutation_spec 3 2 1 (1 # 10) (1 # 100) 42%Z); lia.
Defined.


Lemma final_weights_witness :
  ∃ T V outputs g',
    hopfield_run Demo.uniform Demo.permutation Demo.tanh
      3 2 1 (1 # 10) (1 # 100) 42%Z = Ok ((T, V, outputs), g')
    ∧ ∀ i j, (i < Z.to_nat 2)%nat → (j < Z.to_nat 2)%nat →
        entry T i j ==
        (if decide (i = j)
         then entry (uniform_mat Demo.uniform (-1) 1 (Z.to_nat 2) (Z.to_nat 2)
                       42%Z).1 i j * 2
         else entry (uniform_mat Demo.uniform (-1) 1 (Z.to_nat 2) (Z.to_nat 2)
                       42%Z).1 i j)
        + (if decide (i ≤ j)%nat then inject_Z 3 * (1 # 100)
           else - (inject_Z 3 * (1 # 100))).
Proof.
  apply (final_weights Demo.uniform Demo.permutation Demo.tanh
           demo_permutation_spec 3 2 1 (1 # 10) (1 # 100) 42%Z); lia.
Defined.

Lemma total_weight_drift_witness :
  total_sum (Z.to_nat 2) (Nat.iter 3 (perturb 2 1) Demo.weights2)
  == total_sum (Z.to_nat 2) Demo.weights2 + inject_Z 3 * 1 * inject_Z 2.
Proof.
  apply (total_weight_drift 3 2 1 Demo.weights2); [lia|].
  split; [reflexivity|]. by repeat constructor.
Defined.

Lemma negative_request_is_constant_witness :
  ∃ g',
    hopfield_sha_prng Demo.uniform Demo.permutation Demo.tanh (-3) 42%Z
      = Ok (take (Z.to_nat (8 + -3)) empty_digest_words, g').
Proof.
  apply (negative_request_is_constant Demo.uniform Demo.permutation Demo.tanh
           demo_permutation_spec (-3) 42%Z); lia.
Defined.

Lemma tm_hnn_prng_words_witness :
  tm_hnn_prng Demo.uniform Demo.float32_tobytes 3 42%Z
    = Ok (map (fun state => tm_word (Demo.float32_tobytes state))
            (uniform_vec Demo.uniform (-10) 10 (Z.to_nat 3) 42%Z).1,
          (uniform_vec Demo.uniform (-10) 10 (Z.to_nat 3) 42%Z).2)
  ∧ length (map (fun state => tm_word (Demo.float32_tobytes state))
              (uniform_vec Demo.uniform (-10) 10 (Z.to_nat 3) 42%Z).1)
    = Z.to_nat 3
  ∧ Forall closed_unit
      (map (fun state => tm_word (Demo.float32_tobytes state))
         (uniform_vec Demo.uniform (-10) 10 (Z.to_nat 3) 42%Z).1).
Proof.
  exact (tm_hnn_prng_words Demo.uniform Demo.float32_tobytes
           demo_float32_size 3 42%Z).
Defined.

Lemma notebook_cell_runs_witness :
  ∃ q t d s g',
    notebook_cell Demo.uniform Demo.permutation Demo.tanh Demo.sin
      Demo.float32_tobytes 42%Z
      = Ok (([Fin q], [t], [d], [s]), g')
    ∧ closed_unit q
    ∧ closed_unit t
    ∧ eighth_bit_fraction d
    ∧ unit_interval s.
Proof.
  exact (notebook_cell_runs Demo.uniform Demo.permutation Demo.tanh Demo.sin
           Demo.float32_tobytes demo_permutation_spec demo_float32_size
           demo_uniform_range demo_sin_range 42%Z).
Defined.

Lemma dbhnn_prng_outputs_witness :
  ∃ outputs g',
    dbhnn_prng Demo.uniform Demo.sin 5 (8 # 10) 1000 42%Z = Ok (outputs, g')
    ∧ length outputs = Z.to_nat 5
    ∧ Forall eighth_bit_fraction outputs
    ∧ Forall closed_unit outputs.
Proof.
  apply (dbhnn_prng_outputs Demo.uniform Demo.sin demo_uniform_range
           demo_sin_range 5 (8 # 10) 1000 42%Z); by vm_compute.
Defined.

Lemma no_activation_pass_witness :
  ∃ T0 V0 g0 T outputs,
    initialise Demo.uniform 2 42%Z = Ok ((T0, V0), g0)
    ∧ hopfield_run Demo.uniform Demo.permutation Demo.tanh
        3 2 (-1) (1 # 10) (1 # 100) 42%Z = Ok ((T, V0, outputs), g0)
    ∧ length outputs = Z.to_nat 3.
Proof.
  apply (no_activation_pass Demo.uniform Demo.permutation Demo.tanh
           3 2 (-1) (1 # 10) (1 # 100) 42%Z); lia.
Defined.

(** Outside the range of X9 the state overflows: with the decay [2^64] the
    two variables are infinities at the 17th update, [(x + y) % 1] is
    not-a-number, and [int] raises. *)
Example dbhnn_overflow :
  (∃ outputs g',
     dbhnn_prng Demo.uniform Demo.sin 16 (inject_Z (2 ^ 64)) 1000 42%Z
     = Ok (outputs, g'))
  ∧ dbhnn_prng Demo.uniform Demo.sin 17 (inject_Z (2 ^ 64)) 1000 42%Z
    = Raise ValueError.
Proof. split; [eexists _, _|]; by vm_compute. Qed.

End MoreWitnesses.
